(** * automateCaseFilesDownlaoder.py: a shallow embedding

    The script downloads a case directory (or one file of it) from an SFTP
    server.  This development embeds its four functions
    ([download_directory], [should_exclude], [print_progress],
    [format_size]) and the interactive session of the module body, and
    proves properties of them.

    Conventions of the embedding:
    - Python [str] is [string]; file contents are [list Byte.byte];
    - Python [int] is [Z]; the [float] that [format_size] computes with is
      an exact rational [Q].  Dividing by 1024 only moves the exponent of a
      binary float, so the loop is exact for every byte count up to 2^53;
      above it the first quotient is rounded to a double and the number of
      rounds can be one less than here, and from 2^1024 on Python raises
      OverflowError.  A statement that names the number of rounds or the
      scaled value is therefore made for counts up to 2^53, and a statement
      about sizes above that names the class of the exception only.  The
      percentage of [print_progress] is exact too, where Python rounds the
      quotient to a double, which can change its last printed digit: no
      statement names a digit of it;
    - a local file is known by its path as it is written: [.] and [..]
      are not resolved and a parent directory is not asked for.  A
      statement that tells local files apart is made for [resolved] paths
      and [simple_name]s, which spell one file in one way, and for a local
      directory that exists;
    - exceptions are values of [exn]; a computation is a function from the
      [world] (standard input, network, local files, output so far) to an
      exception or a value, and the new world;
    - everything the script does to the outside is appended to the
      [trace] of the world. *)

From Stdlib Require Import ZArith QArith Qround Qabs Lqa String Ascii List.
From Stdlib Require Import Strings.Byte.
From stdpp Require Import gmap strings list fin_maps pretty.
Import ListNotations.
Local Open Scope string_scope.
Local Open Scope Z_scope.
Local Open Scope list_scope.

(** ** Strings *)

Definition nl : string := String "010"%char EmptyString.
Definition cr : string := String "013"%char EmptyString.

(** [s.startswith(p)] *)
Fixpoint startswith (p s : string) : bool :=
  match p, s with
  | EmptyString, _ => true
  | String a p', String b s' => if decide (a = b) then startswith p' s' else false
  | String _ _, EmptyString => false
  end.

(** [s.endswith(p)] *)
Definition endswith (p s : string) : bool :=
  startswith (String.rev p) (String.rev s).

Definition lower_ascii (c : ascii) : ascii :=
  let n := nat_of_ascii c in
  if ((65 <=? n) && (n <=? 90))%nat then ascii_of_nat (n + 32) else c.

(** [s.lower()], on the ASCII letters *)
Fixpoint lower (s : string) : string :=
  match s with
  | EmptyString => EmptyString
  | String c s' => String (lower_ascii c) (lower s')
  end.

(** [os.path.join(a, b)] of posixpath, for two components *)
Definition path_join (a b : string) : string :=
  if startswith "/" b then b
  else if decide (a = "") then b
  else if endswith "/" a then a +:+ b
  else a +:+ "/" +:+ b.

(** ** Exceptions *)

Inductive exn_class : Type :=
  | BaseException | Exception | KeyboardInterrupt
  | OSError | FileNotFoundError | FileExistsError | IsADirectoryError
  | SSHException | AuthenticationException
  | KeyError | ZeroDivisionError | NameError | EOFError
  | RecursionError | ValueError.

#[global] Instance exn_class_eq_dec : EqDecision exn_class.
Proof. solve_decision. Defined.

(** The direct base class; [IOError] is an alias of [OSError]. *)
Definition base_class (c : exn_class) : option exn_class :=
  match c with
  | BaseException => None
  | Exception | KeyboardInterrupt => Some BaseException
  | FileNotFoundError | FileExistsError | IsADirectoryError => Some OSError
  | AuthenticationException => Some SSHException
  | OSError | SSHException | KeyError | ZeroDivisionError | NameError
  | EOFError | RecursionError | ValueError => Some Exception
  end.

Fixpoint issubclass_fuel (n : nat) (c d : exn_class) : bool :=
  if decide (c = d) then true
  else match n, base_class c with
       | S n', Some b => issubclass_fuel n' b d
       | _, _ => false
       end.

(** The class tree is three levels deep. *)
Definition issubclass : exn_class -> exn_class -> bool := issubclass_fuel 3.

(** A raised exception: its class and [str(e)]. *)
Record exn : Type := Exn { exn_cls : exn_class; exn_msg : string }.

#[global] Instance exn_eq_dec : EqDecision exn.
Proof. solve_decision. Defined.

Definition isinstance (e : exn) (c : exn_class) : bool := issubclass (exn_cls e) c.

(** ** Numbers to text *)

(** Round to the nearest integer, ties to even. *)
Definition round_half_even (q : Q) : Z :=
  let f := Qfloor q in
  let r := (q - inject_Z f)%Q in
  match (r ?= 1 # 2)%Q with
  | Lt => f
  | Gt => f + 1
  | Eq => if Z.even f then f else f + 1
  end.

Definition two_digits (z : Z) : string :=
  if z <? 10 then "0" +:+ pretty z else pretty z.

(** [f"{q:.2f}"] *)
Definition format_2f (q : Q) : string :=
  let neg := match (q ?= 0)%Q with Lt => true | _ => false end in
  let c := round_half_even (Qabs q * 100)%Q in
  (if neg then "-" else "") +:+ pretty (c / 100) +:+ "." +:+ two_digits (c mod 100).

(** ** format_size (lines 53-60) *)

Definition power : Q := inject_Z (2 ^ 10).

(** [power_labels = {0: '', 1: 'KB', 2: 'MB', 3: 'GB'}] *)
Definition power_labels : gmap nat string :=
  <[0%nat := ""]> (<[1%nat := "KB"]> (<[2%nat := "MB"]> (<[3%nat := "GB"]> ∅))).

(** The [while size > power] loop; [fuel] bounds the number of rounds.
    The value is an exact rational: the loop of the code, on doubles,
    makes the same rounds with the same values for every byte count up to
    2^53. *)
Fixpoint format_size_loop (fuel : nat) (size : Q) (n : nat) : Q * nat :=
  match fuel with
  | O => (size, n)
  | S fuel' =>
      if Qlt_le_dec power size
      then format_size_loop fuel' (size / power) (S n)
      else (size, n)
  end.

(** Every round divides by 2^10, so as many rounds as [size] has bits are
    more than the loop can make ([scaled_exit] below). *)
Definition loop_bound (size : Q) : nat := Z.to_nat (Z.log2_up (Qceiling size)).

(** The value and the counter with which the loop ends. *)
Definition scaled (size : Q) : Q * nat := format_size_loop (loop_bound size) size 0.

Definition unit_index (size : Q) : nat := snd (scaled size).

Definition format_size (size : Q) : exn + string :=
  let '(size', n) := scaled size in
  match power_labels !! n with
  | Some label => inr (format_2f size' +:+ " " +:+ label)
  | None => inl (Exn KeyError (pretty n))
  end.

(** 1024^k and 2^f as rationals, to state what the loop does. *)
Definition pow1024 (k : nat) : Q := inject_Z (1024 ^ Z.of_nat k).
Definition two_pow (f : nat) : Q := inject_Z (2 ^ Z.of_nat f).

(** ** should_exclude (lines 45-47) *)

Definition exclude_patterns : list string := [".sfdcprefix"; ".sfdc-file-listing-v1"].

(** [filename in exclude_patterns] *)
Definition should_exclude (filename : string) : bool :=
  bool_decide (filename ∈ exclude_patterns).

(** ** The world outside the script *)

(** What the terminal delivers to one [input()] call: a line, or Ctrl-C
    while it waits.  When nothing is left, [input()] raises [EOFError]. *)
Inductive stdin_item : Type :=
  | Line (s : string)
  | Interrupt.

(** An entry of [sftp.listdir_attr]. *)
Record SFTPAttributes : Type := Attr {
  filename : string;
  st_mode : Z;
  st_size : Z
}.

(** An open SFTP session, seen through the four calls the script makes.
    [sftp_read] gives the chunks that [getfo] reads from a remote file. *)
Record SFTPClient : Type := {
  sftp_listdir_attr : string -> exn + list SFTPAttributes;
  sftp_listdir : string -> exn + list string;
  sftp_stat : string -> exn + SFTPAttributes;
  sftp_read : string -> exn + list (list byte)
}.

(** A local path holds a directory or a file.  The local file system is a
    flat map from path strings; the parents that [os.makedirs] creates on
    its way, and the check that the parent of a new file exists, are left
    out, and a path is looked up as it is written.  So the map describes
    the files when the paths are [resolved] and the directory that files
    are put in exists. *)
Inductive lnode : Type :=
  | LDir
  | LFile (content : list byte).

(** Everything the script does to the outside, in order. *)
Inductive event : Type :=
  | EvInput (prompt : string)
  | EvPrint (text : string)
  | EvConnect (host : string) (port : Z) (username password : string)
  | EvOpenSftp
  | EvCloseSftp
  | EvClose
  | EvListdirAttr (path : string)
  | EvListdir (path : string)
  | EvStat (path : string)
  | EvGetfo (path : string)
  | EvMakedirs (path : string)
  | EvOpen (path mode : string)
  | EvCloseFile (path : string).

#[global] Instance event_eq_dec : EqDecision event.
Proof. solve_decision. Defined.

Definition is_print (e : event) : bool :=
  match e with EvPrint _ => true | _ => false end.

(** The calls in a trace, without what was printed. *)
Definition calls (t : list event) : list event :=
  List.filter (fun e => negb (is_print e)) t.

Record world : Type := World {
  stdin : list stdin_item;
  (** what the successive calls of [ssh_client.connect] do:
      [None] connects, [Some e] raises [e] *)
  connects : list (option exn);
  (** what the successive calls of [ssh_client.open_sftp] give *)
  sftps : list (exn + SFTPClient);
  fs : gmap string lnode;
  (** the home directory, for [os.path.expanduser] *)
  home : string;
  (** how deep [download_directory] may recurse before Python raises
      [RecursionError] *)
  recursion_limit : nat;
  (** whether the module has bound the name [ssh_client] (line 70) *)
  ssh_client_bound : bool;
  trace : list event
}.

Definition set_stdin (l : list stdin_item) (w : world) : world :=
  World l (connects w) (sftps w) (fs w) (home w) (recursion_limit w)
        (ssh_client_bound w) (trace w).
Definition set_connects (l : list (option exn)) (w : world) : world :=
  World (stdin w) l (sftps w) (fs w) (home w) (recursion_limit w)
        (ssh_client_bound w) (trace w).
Definition set_sftps (l : list (exn + SFTPClient)) (w : world) : world :=
  World (stdin w) (connects w) l (fs w) (home w) (recursion_limit w)
        (ssh_client_bound w) (trace w).
Definition set_fs (m : gmap string lnode) (w : world) : world :=
  World (stdin w) (connects w) (sftps w) m (home w) (recursion_limit w)
        (ssh_client_bound w) (trace w).
Definition set_bound (b : bool) (w : world) : world :=
  World (stdin w) (connects w) (sftps w) (fs w) (home w) (recursion_limit w)
        b (trace w).
Definition set_trace (t : list event) (w : world) : world :=
  World (stdin w) (connects w) (sftps w) (fs w) (home w) (recursion_limit w)
        (ssh_client_bound w) t.
Definition emit (evs : list event) (w : world) : world :=
  set_trace (trace w ++ evs) w.

(** ** Computations *)

(** A statement ends normally, raises, or is still running when the fuel
    of a [while True] loop of the model is used up. *)
Inductive result (A : Type) : Type :=
  | Ok (a : A)
  | Raise (e : exn)
  | Diverge.
Arguments Ok {A} a.
Arguments Raise {A} e.
Arguments Diverge {A}.

Definition M (A : Type) : Type := world -> result A * world.

Definition ret {A} (a : A) : M A := fun w => (Ok a, w).
Definition raise {A} (e : exn) : M A := fun w => (Raise e, w).
Definition diverge {A} : M A := fun w => (Diverge, w).

Definition bind {A B} (m : M A) (k : A -> M B) : M B :=
  fun w =>
    match m w with
    | (Ok a, w') => k a w'
    | (Raise e, w') => (Raise e, w')
    | (Diverge, w') => (Diverge, w')
    end.

Notation "'let*' x ':=' m 'in' k" := (bind m (fun x => k))
  (at level 10, x name, m at level 100, k at level 200).
Notation "'let*' ' p ':=' m 'in' k" := (bind m (fun x => let 'p := x in k))
  (at level 10, p pattern, m at level 100, k at level 200).
Notation "m ';;;' k" := (bind m (fun _ => k))
  (at level 100, k at level 200, right associativity).

(** The value of a pure expression that may raise. *)
Definition lift {A} (r : exn + A) : M A :=
  match r with inl e => raise e | inr a => ret a end.

Definition log (e : event) : M unit := fun w => (Ok tt, emit [e] w).

(** The [except] clauses of a [try], tried in order. *)
Fixpoint handle {A} (clauses : list (exn_class * (exn -> M A))) (e : exn) : M A :=
  match clauses with
  | [] => raise e
  | (c, h) :: clauses' => if isinstance e c then h e else handle clauses' e
  end.

(** [try: m  except c1: h1  except c2: h2 ...] *)
Definition try_except {A} (m : M A) (clauses : list (exn_class * (exn -> M A))) : M A :=
  fun w =>
    match m w with
    | (Raise e, w') => handle clauses e w'
    | r => r
    end.

(** [try: m  finally: f]: [f] runs when [m] ends or raises, and what [f]
    raises replaces the outcome of [m]. *)
Definition try_finally {A} (m : M A) (f : M unit) : M A :=
  fun w =>
    match m w with
    | (Diverge, w') => (Diverge, w')
    | (r, w') =>
        match f w' with
        | (Ok _, w'') => (r, w'')
        | (Raise e, w'') => (Raise e, w'')
        | (Diverge, w'') => (Diverge, w'')
        end
    end.

(** [for x in l: body] *)
Fixpoint for_each {A} (l : list A) (body : A -> M unit) : M unit :=
  match l with
  | [] => ret tt
  | x :: l' => body x;;; for_each l' body
  end.

(** ** The built-ins and library calls the script uses *)

(** [print(text, end=e)] *)
Definition print_end (text e : string) : M unit := log (EvPrint (text +:+ e)).

(** [print(text)] *)
Definition print (text : string) : M unit := print_end text nl.

(** [input(prompt)] *)
Definition input (prompt : string) : M string :=
  log (EvInput prompt);;;
  fun w =>
    match stdin w with
    | [] => (Raise (Exn EOFError "EOF when reading a line"), w)
    | Line s :: rest => (Ok s, set_stdin rest w)
    | Interrupt :: rest => (Raise (Exn KeyboardInterrupt ""), set_stdin rest w)
    end.

(** [ssh_client = paramiko.SSHClient()] and the host key policy (lines 70-71) *)
Definition new_ssh_client : M unit := fun w => (Ok tt, set_bound true w).

(** [ssh_client.connect(hostname, port=port, username=username, password=password)];
    a server that has stopped answering fails the connection. *)
Definition ssh_connect (host : string) (port : Z) (username password : string) : M unit :=
  log (EvConnect host port username password);;;
  fun w =>
    match connects w with
    | [] => (Raise (Exn SSHException "No existing session"), w)
    | None :: rest => (Ok tt, set_connects rest w)
    | Some e :: rest => (Raise e, set_connects rest w)
    end.

(** [ssh_client.open_sftp()] *)
Definition open_sftp : M SFTPClient :=
  log EvOpenSftp;;;
  fun w =>
    match sftps w with
    | [] => (Raise (Exn SSHException "SSH session not active"), w)
    | inr sftp :: rest => (Ok sftp, set_sftps rest w)
    | inl e :: rest => (Raise e, set_sftps rest w)
    end.

(** [with ssh_client.open_sftp() as sftp: body]; leaving the block closes
    the SFTP session. *)
Definition with_sftp {A} (body : SFTPClient -> M A) : M A :=
  let* sftp := open_sftp in
  try_finally (body sftp) (log EvCloseSftp).

(** [ssh_client.close()]; the name must be bound. *)
Definition ssh_client_close : M unit :=
  fun w =>
    if ssh_client_bound w then log EvClose w
    else (Raise (Exn NameError "name 'ssh_client' is not defined"), w).

Definition listdir_attr (sftp : SFTPClient) (path : string) : M (list SFTPAttributes) :=
  log (EvListdirAttr path);;; lift (sftp_listdir_attr sftp path).

Definition listdir (sftp : SFTPClient) (path : string) : M (list string) :=
  log (EvListdir path);;; lift (sftp_listdir sftp path).

Definition stat (sftp : SFTPClient) (path : string) : M SFTPAttributes :=
  log (EvStat path);;; lift (sftp_stat sftp path).

(** [os.path.exists(path)] *)
Definition os_path_exists (path : string) : M bool :=
  fun w => (Ok (bool_decide (is_Some (fs w !! path))), w).

(** [os.makedirs(path, exist_ok=exist_ok)] *)
Definition os_makedirs (path : string) (exist_ok : bool) : M unit :=
  log (EvMakedirs path);;;
  fun w =>
    match fs w !! path with
    | None => (Ok tt, set_fs (<[path := LDir]> (fs w)) w)
    | Some LDir =>
        if exist_ok then (Ok tt, w)
        else (Raise (Exn FileExistsError ("[Errno 17] File exists: '" +:+ path +:+ "'")), w)
    | Some (LFile _) =>
        (Raise (Exn FileExistsError ("[Errno 17] File exists: '" +:+ path +:+ "'")), w)
    end.

(** [os.path.expanduser(path)]: a leading [~] becomes the home directory
    of the current user.  The world has this one user: a path that names
    another one ([~name]), which Python looks up, is left as it is. *)
Definition expanduser (home path : string) : string :=
  if decide (path = "~") then home
  else if startswith "~/" path
       then home +:+ String.substring 1 (String.length path - 1) path
       else path.

Definition os_path_expanduser (path : string) : M string :=
  fun w => (Ok (expanduser (home w) path), w).

(** [open(path, mode)] for the binary write modes: ['wb'] creates the file
    or empties the one that is there, ['xb'] creates it and fails when the
    path exists.  The file object is its path. *)
Definition py_open (path mode : string) : M string :=
  log (EvOpen path mode);;;
  fun w =>
    if decide (mode = "wb") then
      match fs w !! path with
      | Some LDir =>
          (Raise (Exn IsADirectoryError ("[Errno 21] Is a directory: '" +:+ path +:+ "'")), w)
      | _ => (Ok path, set_fs (<[path := LFile []]> (fs w)) w)
      end
    else if decide (mode = "xb") then
      match fs w !! path with
      | Some _ =>
          (Raise (Exn FileExistsError ("[Errno 17] File exists: '" +:+ path +:+ "'")), w)
      | None => (Ok path, set_fs (<[path := LFile []]> (fs w)) w)
      end
    else (Raise (Exn ValueError ("invalid mode: '" +:+ mode +:+ "'")), w).

(** [with open(path, mode) as f: body] *)
Definition with_open {A} (path mode : string) (body : string -> M A) : M A :=
  let* f := py_open path mode in
  try_finally (body f) (log (EvCloseFile f)).

(** [f.write(data)] on a file opened for writing *)
Definition file_write (f : string) (data : list byte) : M unit :=
  fun w =>
    match fs w !! f with
    | Some (LFile old) => (Ok tt, set_fs (<[f := LFile (old ++ data)]> (fs w)) w)
    | _ => (Raise (Exn ValueError "I/O operation on closed file"), w)
    end.

(** The copying loop of paramiko's [getfo]: each chunk read is written to
    the local file, then [callback(bytes so far, file size)] is called; an
    empty read ends the loop before the callback. *)
Fixpoint transfer (chunks : list (list byte)) (f : string) (size file_size : Z)
    (callback : Z -> Z -> M unit) : M Z :=
  match chunks with
  | [] => file_write f [];;; ret size
  | data :: chunks' =>
      file_write f data;;;
      let size' := size + Z.of_nat (length data) in
      if decide (data = []) then ret size'
      else callback size' file_size;;; transfer chunks' f size' file_size callback
  end.

(** [sftp.getfo(remote_path, f, callback=callback)]: the size comes from a
    [stat] of the remote path, then the file is read and copied. *)
Definition getfo (sftp : SFTPClient) (remote_path : string) (f : string)
    (callback : Z -> Z -> M unit) : M Z :=
  log (EvGetfo remote_path);;;
  let* a := lift (sftp_stat sftp remote_path) in
  let* chunks := lift (sftp_read sftp remote_path) in
  transfer chunks f 0 (st_size a) callback.

(** ** print_progress (lines 49-51) *)

Definition print_progress (transferred total remotefile_size : Z) : M unit :=
  if decide (remotefile_size = 0) then raise (Exn ZeroDivisionError "division by zero")
  else
    let percent := (inject_Z transferred / inject_Z remotefile_size * 100)%Q in
    let* done := lift (format_size (inject_Z transferred)) in
    let* whole := lift (format_size (inject_Z remotefile_size)) in
    print_end ("Progress: " +:+ format_2f percent +:+ "% - " +:+ done +:+ " / " +:+ whole) cr.

(** ** download_directory (lines 29-43) *)

(** [item.st_mode & 0o4000] as a condition *)
Definition mode_bit (mode : Z) : bool := negb (Z.land mode 2048 =? 0).

(** The file branch (lines 39-43). *)
Definition download_file (sftp : SFTPClient) (remote_path local_path : string)
    (item : SFTPAttributes) : M unit :=
  let remote_size := st_size item in
  let* shown := lift (format_size (inject_Z remote_size)) in
  print (nl +:+ "Downloading " +:+ filename item +:+ " (" +:+ shown +:+ ")...");;;
  with_open local_path "wb" (fun local_file =>
    getfo sftp remote_path local_file (fun x y => print_progress x y remote_size));;;
  print (nl +:+ "Download of " +:+ filename item +:+ " complete").

(** The body of the [for] loop (lines 31-43); [recurse] is the recursive
    call of line 37. *)
Definition download_item (recurse : string -> string -> M unit) (sftp : SFTPClient)
    (remote_dir local_dir : string) (item : SFTPAttributes) : M unit :=
  if negb (should_exclude (filename item)) then
    let remote_path := path_join remote_dir (filename item) in
    let local_path := path_join local_dir (filename item) in
    if mode_bit (st_mode item) then
      os_makedirs local_path true;;;
      recurse remote_path local_path
    else download_file sftp remote_path local_path item
  else ret tt.

(** [depth] is the number of nested calls Python still allows; the call
    that exceeds it raises [RecursionError]. *)
Fixpoint download_directory (depth : nat) (sftp : SFTPClient)
    (remote_dir local_dir : string) : M unit :=
  match depth with
  | O => raise (Exn RecursionError "maximum recursion depth exceeded")
  | S depth' =>
      let* items := listdir_attr sftp remote_dir in
      for_each items (download_item (download_directory depth' sftp) sftp remote_dir local_dir)
  end.

(** ** The session (lines 62-149) *)

Definition hostname : string := "casefiles.sjc.cloudera.com".
Definition port : Z := 22.

Definition msg_auth_failed : string :=
  nl +:+ "Authentication failed. Please check your username and password.".
Definition msg_ssh_failed : string :=
  nl +:+ "Failed to establish SSH connection. Please check the server details.".
Definition msg_aborted : string := nl +:+ "Download process aborted.".
Definition msg_established : string := "SSH connection established.".
Definition msg_invalid_choice : string := "Invalid choice. Please enter 'yes' or 'no'.".
Definition msg_completed : string := nl +:+ "Download process completed.".
Definition msg_ended : string := nl +:+ "Session has ended.".
Definition msg_no_directory (case_number : string) : string :=
  nl +:+ "Remote directory '/case/" +:+ case_number +:+ "' does not exist.".
Definition stars : string :=
  nl +:+ "*********************************************************" +:+ nl.

Definition prompt_username : string := "Enter your user name: ".
Definition prompt_password : string := "Enter your password: ".
Definition prompt_case : string := nl +:+ "Enter the case number: ".
Definition prompt_parent : string :=
  "Enter the local parent directory where you want to save the case folder: ".
Definition prompt_choice : string :=
  nl +:+ "Do you want to download the entire folder? (yes/no): ".
Definition prompt_filename : string := nl +:+ "Enter the filename you want to download: ".

(** How one pass through the body of [while True] (line 74) ends: at its
    end or by [continue], or by [break]. *)
Inductive flow : Type :=
  | Next
  | Break.

(** The first [try] of the loop body (lines 75-86). *)
Definition connect_step (username password : string) : M flow :=
  try_except
    (ssh_connect hostname port username password;;;
     print msg_established;;;
     ret Next)
    [ (AuthenticationException, fun _ => print msg_auth_failed;;; ret Break);
      (SSHException, fun _ => print msg_ssh_failed;;; ret Break);
      (KeyboardInterrupt, fun _ => print msg_aborted;;; ret Break) ].

(** The [while True] that asks for a file name until [sftp.stat] finds it
    (lines 120-129); it gives the name and the two paths. *)
Fixpoint ask_filename (fuel : nat) (sftp : SFTPClient)
    (remote_directory local_case_directory : string) : M (string * string * string) :=
  match fuel with
  | O => diverge
  | S fuel' =>
      let* filename := input prompt_filename in
      let remote_file_path := path_join remote_directory filename in
      let local_file_path := path_join local_case_directory filename in
      let* found :=
        try_except (stat sftp remote_file_path;;; ret true)
          [ (FileNotFoundError, fun _ =>
               print ("Remote file '" +:+ filename +:+
                      "' does not exist. Please enter a valid filename.");;;
               ret false) ] in
      if found then ret (filename, remote_file_path, local_file_path)
      else ask_filename fuel' sftp remote_directory local_case_directory
  end.

(** The single-file transfer (lines 131-134). *)
Definition download_single (sftp : SFTPClient)
    (filename remote_file_path local_file_path : string) : M unit :=
  with_open local_file_path "wb" (fun local_file =>
    let* a := stat sftp remote_file_path in
    let remote_size := st_size a in
    getfo sftp remote_file_path local_file (fun x y => print_progress x y remote_size));;;
  print (nl +:+ "Download of " +:+ filename +:+ " complete").

(** The question and its three branches, and the closing message
    (lines 115-138). *)
Definition choose_and_download (fuel : nat) (sftp : SFTPClient)
    (remote_directory local_case_directory : string) : M unit :=
  let* answer := input prompt_choice in
  let choice := lower answer in
  (if decide (choice = "yes") then
     fun w => download_directory (recursion_limit w) sftp remote_directory local_case_directory w
   else if decide (choice = "no") then
     let* '(filename, remote_file_path, local_file_path) :=
       ask_filename fuel sftp remote_directory local_case_directory in
     download_single sftp filename remote_file_path local_file_path
   else print msg_invalid_choice);;;
  print msg_completed.

(** The body of the [with] block (lines 95-138). *)
Definition case_body (fuel : nat) (case_number local_parent_directory : string)
    (sftp : SFTPClient) : M flow :=
  let remote_directory := "/case/" +:+ case_number in
  let* listed :=
    try_except (listdir sftp remote_directory;;; ret true)
      [ (OSError, fun _ => print (msg_no_directory case_number);;; ret false) ] in
  if negb listed then ret Next
  else
    let* local_parent_directory := os_path_expanduser local_parent_directory in
    let local_case_directory := path_join local_parent_directory case_number in
    let* present := os_path_exists local_case_directory in
    (if negb present then os_makedirs local_case_directory false else ret tt);;;
    let* remote_contents := listdir sftp remote_directory in
    print (nl +:+ "Contents of case file directory " +:+ case_number +:+ ":");;;
    print stars;;;
    for_each remote_contents (fun item => print (" " +:+ item));;;
    print stars;;;
    choose_and_download fuel sftp remote_directory local_case_directory;;;
    ret Next.

(** The second [try] of the loop body (lines 88-142). *)
Definition case_step (fuel : nat) : M flow :=
  try_except
    (let* case_number := input prompt_case in
     let* local_parent_directory := input prompt_parent in
     with_sftp (case_body fuel case_number local_parent_directory))
    [ (KeyboardInterrupt, fun _ => print msg_aborted;;; ret Break) ].

(** The [while True] of line 74. *)
Fixpoint session_loop (fuel : nat) (username password : string) : M unit :=
  match fuel with
  | O => diverge
  | S fuel' =>
      let* f := connect_step username password in
      match f with
      | Break => ret tt
      | Next =>
          let* g := case_step fuel' in
          match g with
          | Break => ret tt
          | Next => session_loop fuel' username password
          end
      end
  end.

(** The outer [try] (lines 62-142) with its [except Exception] (144-145). *)
Definition session (fuel : nat) : M unit :=
  try_except
    (let* username := input prompt_username in
     let* password := input prompt_password in
     new_ssh_client;;;
     session_loop fuel username password)
    [ (Exception, fun e => print ("An error occurred: " +:+ exn_msg e)) ].

(** The whole module body: the [finally] of lines 146-149 closes the
    connection and prints the last message. *)
Definition main (fuel : nat) : M unit :=
  try_finally (session fuel) (ssh_client_close;;; print msg_ended).

(** Every pass of a loop reads a line, so one more round than there are
    lines is more than the loops can make. *)
Definition run (w : world) : result unit * world :=
  main (S (length (stdin w))) w.

(** ** What a computation may do to the world *)

(** From [w] to [w']: the trace has grown by events that satisfy [P], the
    name ssh_client stays bound once it is, and no input has come back. *)
Definition evolves (P : event -> Prop) (w w' : world) : Prop :=
  (exists evs, trace w' = trace w ++ evs /\ Forall P evs) /\
  (ssh_client_bound w = true -> ssh_client_bound w' = true) /\
  (length (stdin w') <= length (stdin w))%nat.

Definition keeps (P : event -> Prop) {A} (m : M A) : Prop :=
  forall w, evolves P w (snd (m w)).

(** A path made of a directory and an entry name that is not excluded. *)
Definition child (path : string) : Prop :=
  exists d name, path = path_join d name /\ should_exclude name = false.

(** The events of a walk that starts at [root]: printing, the listing of
    [root], and calls on paths of entries that are not excluded. *)
Definition walk_event (root : string) (e : event) : Prop :=
  match e with
  | EvPrint _ => True
  | EvListdirAttr p => p = root \/ child p
  | EvGetfo p | EvMakedirs p | EvOpen p _ | EvCloseFile p => child p
  | _ => False
  end.

(** With at most [n] lines left to read, [m] ends or raises (its loops
    have fuel enough) and leaves at most [n] lines. *)
Definition total_within (n : nat) {A} (m : M A) : Prop :=
  forall w, (length (stdin w) <= n)%nat ->
    fst (m w) <> Diverge /\ (length (stdin (snd (m w))) <= n)%nat.

(** Any event but the closing of the SSH connection. *)
Definition not_close (e : event) : Prop := e <> EvClose.

(** The bytes that [transfer] writes when nothing stops it: the chunks up
    to the first empty one. *)
Fixpoint received (chunks : list (list byte)) : list byte :=
  match chunks with
  | [] => []
  | data :: chunks' => if decide (data = []) then [] else data ++ received chunks'
  end.

(** ** What the walk leaves alone *)

(** From [w] to [w'] the local files outside [local_dir] (the paths that do
    not start with it) are the same, and so is everything of the world but
    the files and the trace. *)
Definition confined (local_dir : string) (w w' : world) : Prop :=
  (forall path, startswith local_dir path = false -> fs w' !! path = fs w !! path) /\
  stdin w' = stdin w /\ connects w' = connects w /\ sftps w' = sftps w /\
  home w' = home w /\ recursion_limit w' = recursion_limit w /\
  ssh_client_bound w' = ssh_client_bound w.

Definition preserves (R : world -> world -> Prop) {A} (m : M A) : Prop :=
  forall w, R w (snd (m w)).

(** ** Names and paths that spell one file in one way *)






(** ** The entries a walk is about *)

(** The directories that a walk from [root_remote] into [root_local] can
    go into: the root, and each entry that the server lists in such a
    directory under a name that is not excluded and with the mode bit. *)
Inductive visited (sftp : SFTPClient) (root_remote root_local : string) :
    string -> string -> Prop :=
  | visited_root : visited sftp root_remote root_local root_remote root_local
  | visited_entry remote_dir local_dir items item :
      visited sftp root_remote root_local remote_dir local_dir ->
      sftp_listdir_attr sftp remote_dir = inr items ->
      In item items ->
      should_exclude (filename item) = false ->
      mode_bit (st_mode item) = true ->
      visited sftp root_remote root_local
        (path_join remote_dir (filename item)) (path_join local_dir (filename item)).

(** [remote_path] and [local_path] are the two paths of an entry that the
    server lists in a directory of the walk under a name that is not
    excluded; [as_dir] is the branch that its mode bit selects. *)
Definition listed_entry (sftp : SFTPClient) (root_remote root_local : string)
    (as_dir : bool) (remote_path local_path : string) : Prop :=
  exists remote_dir local_dir items item,
    visited sftp root_remote root_local remote_dir local_dir /\
    sftp_listdir_attr sftp remote_dir = inr items /\
    In item items /\
    should_exclude (filename item) = false /\
    mode_bit (st_mode item) = as_dir /\
    remote_path = path_join remote_dir (filename item) /\
    local_path = path_join local_dir (filename item).

(** What a walk may do: print, list a directory it goes into, make the
    local directory of a listed directory entry, and open, fetch and close
    the file of a listed file entry. *)
Definition walk_call (sftp : SFTPClient) (root_remote root_local : string)
    (e : event) : Prop :=
  match e with
  | EvPrint _ => True
  | EvListdirAttr p => exists local_dir, visited sftp root_remote root_local p local_dir
  | EvMakedirs p => exists remote_path, listed_entry sftp root_remote root_local true remote_path p
  | EvGetfo p => exists local_path, listed_entry sftp root_remote root_local false p local_path
  | EvOpen p mode =>
      mode = "wb" /\
      exists remote_path, listed_entry sftp root_remote root_local false remote_path p
  | EvCloseFile p =>
      exists remote_path, listed_entry sftp root_remote root_local false remote_path p
  | _ => False
  end.

(** [m] gives only values that satisfy [P] when it ends normally. *)
Definition returns_only {A} (P : A -> Prop) (m : M A) : Prop :=
  forall w a w', m w = (Ok a, w') -> P a.

(** What the script prints for an exception that [connect] raises, if it
    catches it: the clauses of lines 78-86 in their order, then the
    [except Exception] of line 144. *)
Definition connect_report (e : exn) : option string :=
  if isinstance e AuthenticationException then Some msg_auth_failed
  else if isinstance e SSHException then Some msg_ssh_failed
  else if isinstance e KeyboardInterrupt then Some msg_aborted
  else if isinstance e Exception then Some ("An error occurred: " +:+ exn_msg e)
  else None.

(** ** A server to run the script against *)

(** What the server holds at a path: a file, or a directory with the names
    in it. *)
Inductive rnode : Type :=
  | RFile (mode : Z) (content : list byte)
  | RDir (mode : Z) (names : list string).

Definition rnode_attr (name : string) (n : rnode) : SFTPAttributes :=
  match n with
  | RFile mode content => Attr name mode (Z.of_nat (length content))
  | RDir mode _ => Attr name mode 4096
  end.

Definition no_such_file : exn := Exn FileNotFoundError "[Errno 2] No such file".
Definition failure : exn := Exn OSError "Failure".

(** The SFTP session of a server whose tree is [srv]: listing a file and
    reading a directory fail, as does any call on a path that is absent;
    a file is read in one chunk. *)
Definition sftp_of (srv : gmap string rnode) : SFTPClient := {|
  sftp_listdir_attr path :=
    match srv !! path with
    | Some (RDir _ names) =>
        inr (omap (fun name => rnode_attr name <$> srv !! path_join path name) names)
    | Some (RFile _ _) => inl failure
    | None => inl no_such_file
    end;
  sftp_listdir path :=
    match srv !! path with
    | Some (RDir _ names) => inr names
    | Some (RFile _ _) => inl failure
    | None => inl no_such_file
    end;
  sftp_stat path :=
    match srv !! path with
    | Some n => inr (rnode_attr path n)
    | None => inl no_such_file
    end;
  sftp_read path :=
    match srv !! path with
    | Some (RFile _ content) => inr (if decide (content = []) then [] else [content])
    | Some (RDir _ _) => inl failure
    | None => inl no_such_file
    end
|}.

(** [S_IFDIR | 0o755] and [S_IFREG | 0o644], the modes of an ordinary
    directory and an ordinary file. *)
Definition mode_dir : Z := Z.lor 16384 493.
Definition mode_file : Z := Z.lor 32768 420.

Definition bytes (s : string) : list byte := list_byte_of_string s.

(** Case 7 holds the file [a.txt] and the directory [logs] with the file
    [b.txt] in it. *)
Definition case7 : gmap string rnode :=
  <["/case/7" := RDir mode_dir ["a.txt"; "logs"]]>
  (<["/case/7/a.txt" := RFile mode_file (bytes "hello")]>
  (<["/case/7/logs" := RDir mode_dir ["b.txt"]]>
  (<["/case/7/logs/b.txt" := RFile mode_file (bytes "log")]> ∅))).

(** The same tree when the directories carry the set-uid bit [0o4000]
    besides [S_IFDIR]. *)
Definition case7_setuid : gmap string rnode :=
  <["/case/7" := RDir (Z.lor mode_dir 2048) ["a.txt"; "logs"]]>
  (<["/case/7/a.txt" := RFile mode_file (bytes "hello")]>
  (<["/case/7/logs" := RDir (Z.lor mode_dir 2048) ["b.txt"]]>
  (<["/case/7/logs/b.txt" := RFile mode_file (bytes "log")]> ∅))).

(** Case 0 holds one empty file. *)
Definition case0 : gmap string rnode :=
  <["/case/0" := RDir mode_dir ["empty"]]>
  (<["/case/0/empty" := RFile mode_file []]> ∅).

(** Case 9 holds the single file [a.txt]. *)
Definition case9 : gmap string rnode :=
  <["/case/9" := RDir mode_dir ["a.txt"]]>
  (<["/case/9/a.txt" := RFile mode_file (bytes "hello")]> ∅).

(** Case 5 holds the file [a.txt], the directory [logs] (marked with the
    bit that the walker tests) with the file [b.txt], and a file under
    each of the two sentinel names, at the top and in [logs]. *)
Definition case5 : gmap string rnode :=
  <["/case/5" := RDir mode_dir ["a.txt"; ".sfdcprefix"; "logs"; ".sfdc-file-listing-v1"]]>
  (<["/case/5/a.txt" := RFile mode_file (bytes "hello")]>
  (<["/case/5/.sfdcprefix" := RFile mode_file (bytes "x")]>
  (<["/case/5/.sfdc-file-listing-v1" := RFile mode_file (bytes "y")]>
  (<["/case/5/logs" := RDir (Z.lor mode_dir 2048) [".sfdcprefix"; "b.txt"]]>
  (<["/case/5/logs/.sfdcprefix" := RFile mode_file (bytes "z")]>
  (<["/case/5/logs/b.txt" := RFile mode_file (bytes "log")]> ∅)))))).

(** A world in which nothing has happened yet. *)
Definition start (input_lines : list stdin_item) (conn : list (option exn))
    (sessions : list (exn + SFTPClient)) (files : gmap string lnode) : world :=
  World input_lines conn sessions files "/home/user" 1000 false [].

(** ** Tactics *)

(** Solve [not_close e] for an event that is visibly another one. *)
Ltac other_event := solve [unfold not_close; discriminate].

(** One goal per [except] clause of a [try]. *)
Ltac each_clause :=
  repeat match goal with
         | |- Forall _ (_ :: _) => constructor; [simpl; intro|]
         | |- Forall _ [] => constructor
         end.

(** Run the steps of the session as far as the world is known. *)
Ltac run_steps :=
  cbv beta iota zeta delta
    [connect_step case_step case_body choose_and_download with_sftp with_open
     open_sftp ssh_connect listdir listdir_attr stat input print print_end log
     lift raise ret bind handle try_except try_finally
     emit set_connects set_stdin set_sftps set_trace set_fs set_bound
     stdin connects sftps fs home recursion_limit ssh_client_bound trace
     fst snd negb].

(** Two descriptions of the same world, up to the bracketing of the
    trace. *)
Ltac same_world :=
  unfold emit, set_fs, set_stdin, set_connects, set_sftps, set_bound, set_trace;
  cbn [stdin connects sftps fs home recursion_limit ssh_client_bound trace];
  rewrite <- ?app_assoc; reflexivity.

(** * Properties *)

(** ** format_size on examples *)

Example fs1 : format_size 500 = inr "500.00 ". Proof. vm_compute. reflexivity. Qed.
Example fs2 : format_size 1024 = inr "1024.00 ". Proof. vm_compute. reflexivity. Qed.
Example fs3 : format_size 1025 = inr "1.00 KB". Proof. vm_compute. reflexivity. Qed.
Example fs4 : format_size (inject_Z (1024^2)) = inr "1024.00 KB". Proof. vm_compute. reflexivity. Qed.
Example fs5 : format_size (inject_Z (1024^4)) = inr "1024.00 GB". Proof. vm_compute. reflexivity. Qed.
Example fs6 : format_size (inject_Z (1024^4+1)) = inl (Exn KeyError "4"). Proof. vm_compute. reflexivity. Qed.
Example fs7 : format_size 1536 = inr "1.50 KB". Proof. vm_compute. reflexivity. Qed.
Example fs8 : format_size 123456789 = inr "117.74 MB". Proof. vm_compute. reflexivity. Qed.

(** *** The loop of format_size *)

Section FormatSizeLoop.
Local Open Scope Q_scope.

Lemma power_1024 : power = 1024.
Proof. reflexivity. Qed.

Lemma pow1024_S k : pow1024 (S k) == 1024 * pow1024 k.
Proof.
  unfold pow1024. rewrite Nat2Z.inj_succ, Z.pow_succ_r by lia.
  now rewrite inject_Z_mult.
Qed.

Lemma pow1024_pos k : 0 < pow1024 k.
Proof.
  unfold pow1024. change 0 with (inject_Z 0). rewrite <- Zlt_Qlt.
  apply Z.pow_pos_nonneg; lia.
Qed.

Lemma pow1024_ge1 k : 1 <= pow1024 k.
Proof.
  unfold pow1024. change 1 with (inject_Z 1). rewrite <- Zle_Qle.
  assert (0 < 1024 ^ Z.of_nat k)%Z by (apply Z.pow_pos_nonneg; lia). lia.
Qed.

Lemma two_pow_S f : two_pow (S f) == 2 * two_pow f.
Proof.
  unfold two_pow. rewrite Nat2Z.inj_succ, Z.pow_succ_r by lia.
  now rewrite inject_Z_mult.
Qed.

Lemma two_pow_pos f : 0 < two_pow f.
Proof.
  unfold two_pow. change 0 with (inject_Z 0). rewrite <- Zlt_Qlt.
  apply Z.pow_pos_nonneg; lia.
Qed.

Lemma two_pow_0 : two_pow 0 == 1.
Proof. reflexivity. Qed.

Lemma pow1024_0 : pow1024 0 == 1.
Proof. reflexivity. Qed.

Lemma div_power size : size / power == size * (1 # 1024).
Proof. reflexivity. Qed.

(** The counter only grows. *)
Lemma format_size_loop_counter fuel : forall size n,
  (n <= snd (format_size_loop fuel size n))%nat.
Proof.
  induction fuel as [|fuel IH]; intros size n; simpl; [lia|].
  destruct (Qlt_le_dec power size); simpl; [|lia].
  specialize (IH (size / power) (S n)). lia.
Qed.

(** With fuel for every bit of [size], the loop ends because its test
    fails, and it has divided once per count. *)
Lemma format_size_loop_exit fuel : forall size n,
  size <= two_pow fuel ->
  let r := format_size_loop fuel size n in
  fst r <= 1024 /\ (n <= snd r)%nat /\ fst r * pow1024 (snd r - n) == size /\
  (snd r <> n -> 1 < fst r).
Proof.
  induction fuel as [|fuel IH]; intros size n Hb; simpl.
  - rewrite two_pow_0 in Hb. rewrite Nat.sub_diag, pow1024_0.
    repeat split; try lra; try lia; congruence.
  - destruct (Qlt_le_dec power size) as [Hgt|Hle]; simpl.
    + rewrite power_1024 in Hgt. pose proof (div_power size) as Hq. set (q := size / power) in *.
      assert (Hb' : q <= two_pow fuel)
        by (rewrite two_pow_S in Hb; pose proof (two_pow_pos fuel); lra).
      destruct (IH q (S n) Hb') as (H1 & H2 & H3 & H4).
      set (r := format_size_loop fuel q (S n)) in *.
      repeat split; try assumption; try lia.
      * replace (snd r - n)%nat with (S (snd r - S n)) by lia.
        rewrite pow1024_S. lra.
      * intros _. destruct (Nat.eq_dec (snd r) (S n)) as [E|E]; [|tauto].
        rewrite E, Nat.sub_diag, pow1024_0 in H3. lra.
    + rewrite power_1024 in Hle. rewrite Nat.sub_diag, pow1024_0.
      repeat split; try lra; try lia; congruence.
Qed.

Lemma loop_bound_enough size : size <= two_pow (loop_bound size).
Proof.
  unfold loop_bound, two_pow.
  apply Qle_trans with (inject_Z (Qceiling size)); [apply Qle_ceiling|].
  rewrite <- Zle_Qle.
  destruct (Z_le_gt_dec (Qceiling size) 1) as [H|H].
  - rewrite Z.log2_up_eqn0 by assumption. simpl. lia.
  - rewrite Z2Nat.id by apply Z.log2_up_nonneg.
    apply Z.log2_up_spec. lia.
Qed.

(** On the interval (1024^k, 1024^(k+1)] the loop makes exactly [k] rounds
    (for [k = 0] the interval is everything up to 1024). *)
Lemma format_size_loop_rounds k : forall fuel size n,
  size <= two_pow fuel ->
  (k = O \/ pow1024 k < size) ->
  size <= pow1024 (S k) ->
  snd (format_size_loop fuel size n) = (n + k)%nat.
Proof.
  induction k as [|k IH]; intros fuel size n Hb Hlo Hhi.
  - rewrite pow1024_S, pow1024_0 in Hhi.
    destruct fuel as [|fuel]; simpl; [lia|].
    destruct (Qlt_le_dec power size) as [Hgt|Hle]; simpl; [|lia].
    rewrite power_1024 in Hgt. lra.
  - destruct Hlo as [Hlo|Hlo]; [discriminate|].
    pose proof (pow1024_ge1 k) as Hk. rewrite pow1024_S in Hlo.
    destruct fuel as [|fuel]; simpl.
    + rewrite two_pow_0 in Hb. lra.
    + destruct (Qlt_le_dec power size) as [Hgt|Hle]; simpl.
      * rewrite power_1024 in Hgt. pose proof (div_power size) as Hq. set (q := size / power) in *.
        rewrite IH; [lia| | |].
        -- rewrite two_pow_S in Hb. pose proof (two_pow_pos fuel). lra.
        -- right. lra.
        -- rewrite (pow1024_S (S k)) in Hhi. lra.
      * rewrite power_1024 in Hle. lra.
Qed.

(** A larger size never makes fewer rounds. *)
Lemma format_size_loop_mono f1 : forall f2 s1 s2 n,
  s1 <= s2 -> s2 <= two_pow f2 ->
  (snd (format_size_loop f1 s1 n) <= snd (format_size_loop f2 s2 n))%nat.
Proof.
  induction f1 as [|f1 IH]; intros f2 s1 s2 n H12 Hb; simpl.
  - apply format_size_loop_counter.
  - destruct (Qlt_le_dec power s1) as [Hgt|Hle]; simpl.
    + rewrite power_1024 in Hgt.
      destruct f2 as [|f2]; simpl.
      * rewrite two_pow_0 in Hb. lra.
      * destruct (Qlt_le_dec power s2) as [Hgt2|Hle2].
        -- pose proof (div_power s1) as Hq1. pose proof (div_power s2) as Hq2.
           apply IH; [lra|]. rewrite two_pow_S in Hb.
           pose proof (two_pow_pos f2). lra.
        -- rewrite power_1024 in Hle2. lra.
    + apply format_size_loop_counter.
Qed.

Lemma unit_index_rounds k size :
  (k = O \/ pow1024 k < size) -> size <= pow1024 (S k) -> unit_index size = k.
Proof.
  intros Hlo Hhi. unfold unit_index, scaled.
  now rewrite (format_size_loop_rounds k) by auto using loop_bound_enough.
Qed.

Lemma unit_index_mono s1 s2 : s1 <= s2 -> (unit_index s1 <= unit_index s2)%nat.
Proof.
  intros H. unfold unit_index, scaled.
  apply format_size_loop_mono; auto using loop_bound_enough.
Qed.

(** The loop of [format_size] always ends with its test false. *)
Lemma scaled_exit size :
  fst (scaled size) <= 1024 /\
  fst (scaled size) * pow1024 (unit_index size) == size /\
  (unit_index size <> O -> 1 < fst (scaled size)).
Proof.
  destruct (format_size_loop_exit (loop_bound size) size 0 (loop_bound_enough size))
    as (H1 & _ & H3 & H4).
  unfold unit_index, scaled. rewrite Nat.sub_0_r in H3. auto.
Qed.

(** Above 1024^4 the loop makes at least four rounds. *)
Lemma unit_index_beyond size : pow1024 4 < size -> (4 <= unit_index size)%nat.
Proof.
  intros HB. destruct (scaled_exit size) as (Hv & Hq & _).
  rewrite !pow1024_S, pow1024_0 in HB.
  destruct (unit_index size) as [|[|[|[|n]]]]; try lia;
    rewrite ?pow1024_S, ?pow1024_0 in Hq; lra.
Qed.

End FormatSizeLoop.

(** ** Running computations by hand *)

Lemma bind_ok {A B} (m : M A) (k : A -> M B) w a w' :
  m w = (Ok a, w') -> bind m k w = k a w'.
Proof. intros H. unfold bind. now rewrite H. Qed.

Lemma bind_raise {A B} (m : M A) (k : A -> M B) w e w' :
  m w = (Raise e, w') -> bind m k w = (Raise e, w').
Proof. intros H. unfold bind. now rewrite H. Qed.

Lemma emit_emit l1 l2 w : emit l2 (emit l1 w) = emit (l1 ++ l2) w.
Proof. unfold emit, set_trace. simpl. now rewrite app_assoc. Qed.

Lemma emit_nil w : emit [] w = w.
Proof. destruct w. unfold emit, set_trace. simpl. now rewrite app_nil_r. Qed.

Lemma input_line prompt s rest w :
  stdin w = Line s :: rest ->
  input prompt w = (Ok s, emit [EvInput prompt] (set_stdin rest w)).
Proof. intros H. unfold input, bind, log. simpl. now rewrite H. Qed.

Lemma input_interrupt prompt rest w :
  stdin w = Interrupt :: rest ->
  input prompt w =
  (Raise (Exn KeyboardInterrupt ""), emit [EvInput prompt] (set_stdin rest w)).
Proof. intros H. unfold input, bind, log. simpl. now rewrite H. Qed.

Lemma input_eof prompt w :
  stdin w = [] ->
  input prompt w =
  (Raise (Exn EOFError "EOF when reading a line"), emit [EvInput prompt] w).
Proof. intros H. unfold input, bind, log. simpl. now rewrite H. Qed.

Lemma print_run text w : print text w = (Ok tt, emit [EvPrint (text +:+ nl)] w).
Proof. reflexivity. Qed.

(** ** should_exclude *)

Lemma should_exclude_spec name :
  should_exclude name = true <->
  name = ".sfdcprefix" \/ name = ".sfdc-file-listing-v1".
Proof.
  unfold should_exclude, exclude_patterns.
  rewrite bool_decide_eq_true, !elem_of_cons, elem_of_nil. tauto.
Qed.


(** The loop body by cases: an entry named like a sentinel is skipped, any
    other entry is handled by the branch that the mode bit selects. *)
Lemma download_item_cases recurse sftp remote_dir local_dir item w :
  (should_exclude (filename item) = true <->
   filename item = ".sfdcprefix" \/ filename item = ".sfdc-file-listing-v1") /\
  download_item recurse sftp remote_dir local_dir item w =
  if decide (filename item = ".sfdcprefix" \/ filename item = ".sfdc-file-listing-v1")
  then (Ok tt, w)
  else if mode_bit (st_mode item)
       then (os_makedirs (path_join local_dir (filename item)) true;;;
             recurse (path_join remote_dir (filename item))
                     (path_join local_dir (filename item))) w
       else download_file sftp (path_join remote_dir (filename item))
                          (path_join local_dir (filename item)) item w.
Proof.
  split; [apply should_exclude_spec|].
  unfold download_item.
  destruct (decide _) as [Hs|Hs].
  - apply should_exclude_spec in Hs. now rewrite Hs.
  - destruct (should_exclude (filename item)) eqn:E.
    + apply should_exclude_spec in E. contradiction.
    + simpl. now destruct (mode_bit (st_mode item)).
Qed.

(** ** format_size *)

(** C3. For byte counts up to 2^53, where the loop on doubles is exact: the
    loop divides by 1024 while the value is strictly above 1024; it ends
    with a value of at most 1024 that is the size divided by 1024 once per
    count, and the count selects the label. So a size that is exactly a
    power of 1024 stays in the lower unit (1024^(k+1) has index k, one byte
    more has index k+1, for the five powers below 2^53; 1024 is shown
    without unit, 1024^2 in KB, 1024^3 in MB, 1024^4 in GB), and the index
    of the unit never decreases as the size grows. *)
Theorem format_size_boundary (B1 B2 : Z) (k : nat) :
  0 <= B1 -> B1 <= B2 -> B2 <= 2 ^ 53 -> (k <= 4)%nat ->
  (fst (scaled (inject_Z B1)) <= 1024 /\
   fst (scaled (inject_Z B1)) * pow1024 (unit_index (inject_Z B1)) == inject_Z B1 /\
   (unit_index (inject_Z B1) <> O -> 1 < fst (scaled (inject_Z B1))))%Q /\
  format_size (inject_Z B1) =
    match power_labels !! unit_index (inject_Z B1) with
    | Some label => inr (format_2f (fst (scaled (inject_Z B1))) +:+ " " +:+ label)
    | None => inl (Exn KeyError (pretty (unit_index (inject_Z B1))))
    end /\
  unit_index (pow1024 (S k)) = k /\
  unit_index (pow1024 (S k) + 1) = S k /\
  (unit_index (inject_Z B1) <= unit_index (inject_Z B2))%nat /\
  format_size (inject_Z 1024) = inr "1024.00 " /\
  format_size (inject_Z (1024 ^ 2)) = inr "1024.00 KB" /\
  format_size (inject_Z (1024 ^ 3)) = inr "1024.00 MB" /\
  format_size (inject_Z (1024 ^ 4)) = inr "1024.00 GB".
Proof.
  intros _ H12 _ _. split; [apply scaled_exit|].
  split.
  { unfold format_size, unit_index. now destruct (scaled (inject_Z B1)). }
  pose proof (pow1024_ge1 k) as Hk.
  pose proof (pow1024_S k) as HS. pose proof (pow1024_S (S k)) as HSS.
  split; [|split; [|split]].
  - apply unit_index_rounds; [|lra].
    destruct k; [now left|right]. lra.
  - apply unit_index_rounds; [right|]; lra.
  - apply unit_index_mono. now rewrite <- Zle_Qle.
  - vm_compute. repeat split.
Qed.

Lemma format_size_boundary_witness :
  unit_index (pow1024 2) = 1%nat /\
  (unit_index (inject_Z 1024) <= unit_index (inject_Z 1025))%nat.
Proof.
  destruct (format_size_boundary 1024 1025 1) as (_ & _ & H1 & _ & H2 & _);
    [lia|lia|lia|lia|].
  split; assumption.
Defined.

Lemma power_labels_lookup n :
  power_labels !! n =
  match n with
  | 0%nat => Some "" | 1%nat => Some "KB" | 2%nat => Some "MB" | 3%nat => Some "GB"
  | _ => None
  end.
Proof.
  unfold power_labels.
  do 4 (destruct n as [|n]; [reflexivity|]).
  now rewrite !lookup_insert_ne, lookup_empty by lia.
Qed.

(** Above 1024^4 the lookup of the label fails with the count as the key. *)
Lemma format_size_key_error (B : Q) :
  (pow1024 4 < B)%Q ->
  (4 <= unit_index B)%nat /\
  format_size B = inl (Exn KeyError (pretty (unit_index B))).
Proof.
  intros HB. pose proof (unit_index_beyond B HB) as H4.
  split; [assumption|].
  unfold format_size. unfold unit_index in *.
  destruct (scaled B) as [v n]. simpl in *.
  rewrite power_labels_lookup.
  do 4 (destruct n as [|n]; [lia|]). reflexivity.
Qed.

(** C4. The table of labels has the four keys 0 to 3: no label, KB, MB and
    GB. A byte count above 1024^4 (and below 2^1024, where the division
    itself fails in Python) makes the loop count to four or more, the
    lookup fails, and format_size raises KeyError instead of a text. Up
    to 2^53, where the count of the loop is exact, the key of the error is
    that count. *)
Theorem format_size_beyond_table (B : Z) :
  1024 ^ 4 < B < 2 ^ 1024 ->
  (forall n, is_Some (power_labels !! n) <-> (n <= 3)%nat) /\
  (power_labels !! 0%nat = Some "" /\ power_labels !! 1%nat = Some "KB" /\
   power_labels !! 2%nat = Some "MB" /\ power_labels !! 3%nat = Some "GB") /\
  (exists e, format_size (inject_Z B) = inl e /\ exn_cls e = KeyError) /\
  (B <= 2 ^ 53 ->
   (4 <= unit_index (inject_Z B))%nat /\
   format_size (inject_Z B) = inl (Exn KeyError (pretty (unit_index (inject_Z B))))).
Proof.
  intros [HB _].
  assert (HQ : (pow1024 4 < inject_Z B)%Q) by (unfold pow1024; now rewrite <- Zlt_Qlt).
  destruct (format_size_key_error (inject_Z B) HQ) as [H4 Hk].
  split; [|split; [now rewrite !power_labels_lookup|split]].
  - intros n. rewrite power_labels_lookup.
    do 4 (destruct n as [|n]; [split; [lia|eauto]|]).
    split; [intros [x Hx]; discriminate|lia].
  - eexists. split; [exact Hk|reflexivity].
  - intros _. split; assumption.
Qed.

Lemma format_size_beyond_table_witness :
  format_size (inject_Z (2 ^ 41)) = inl (Exn KeyError "4").
Proof.
  destruct (format_size_beyond_table (2 ^ 41)) as (_ & _ & _ & H).
  - split; reflexivity.
  - destruct H as [_ H]; [lia|]. rewrite H. reflexivity.
Defined.

(** ** print_progress *)

(** C10. The percentage is transferred / remotefile_size * 100 with no test
    of the divisor: when the remote size is zero every call of
    print_progress raises ZeroDivisionError, whatever has been transferred,
    and prints nothing. A file of zero bytes is a valid transfer all the
    same: the empty file of case 0 is copied, because getfo never calls
    the callback for it. *)
Theorem print_progress_zero_size (transferred total : Z) (w : world) :
  print_progress transferred total 0 w =
    (Raise (Exn ZeroDivisionError "division by zero"), w) /\
  (let w0 := start [] [] [] {["/tmp/0" := LDir]} in
   let r := download_directory 1000 (sftp_of case0) "/case/0" "/tmp/0" w0 in
   sftp_listdir_attr (sftp_of case0) "/case/0" = inr [Attr "empty" mode_file 0] /\
   fst r = Ok tt /\ fs (snd r) !! "/tmp/0/empty" = Some (LFile [])).
Proof. split; [reflexivity|]. vm_compute. repeat split. Qed.

(** A file of size zero that yields a chunk after all stops the transfer
    with that error, after the chunk has been written. *)
Lemma transfer_zero_size data chunks f size old w :
  data <> [] -> fs w !! f = Some (LFile old) ->
  transfer (data :: chunks) f size 0 (fun x y => print_progress x y 0) w =
  (Raise (Exn ZeroDivisionError "division by zero"),
   set_fs (<[f := LFile (old ++ data)]> (fs w)) w).
Proof.
  intros Hd Hf. simpl. unfold bind, file_write. rewrite Hf.
  destruct (decide (data = [])); [contradiction|reflexivity].
Qed.

(** An empty file is copied without any call of print_progress. *)
Lemma transfer_empty f size file_size callback old w :
  fs w !! f = Some (LFile old) ->
  transfer [] f size file_size callback w = (Ok size, w).
Proof.
  intros Hf. simpl. unfold bind, file_write. rewrite Hf, app_nil_r.
  rewrite insert_id by assumption. now destruct w.
Qed.

(** ** download_directory on an ordinary directory *)

(** An ordinary directory ([S_IFDIR] with permission bits) does not have
    the bit that line 35 tests. *)
Lemma mode_bit_S_IFDIR perm : 0 <= perm < 2048 -> mode_bit (Z.lor 16384 perm) = false.
Proof.
  intros Hp. unfold mode_bit.
  replace (Z.land (Z.lor 16384 perm) 2048) with 0; [reflexivity|].
  symmetry. apply Z.bits_inj'. intros n Hn.
  rewrite Z.land_spec, Z.lor_spec, Z.bits_0.
  destruct (Z.eq_dec n 11) as [->|Hne].
  - replace (Z.testbit perm 11) with false; [reflexivity|].
    symmetry. destruct (Z.eq_dec perm 0) as [->|Hz]; [apply Z.bits_0|].
    apply Z.bits_above_log2; [lia|].
    apply Z.log2_lt_pow2; lia.
  - change 2048 with (2 ^ 11). rewrite Z.pow2_bits_false by lia.
    apply andb_false_r.
Qed.

(** C1 on the code. Case 7 holds the file a.txt and the ordinary directory
    logs (mode S_IFDIR | 0o755) with b.txt in it. The mode bit 0o4000 is
    not set for logs, so the walker takes the file branch for it: it opens
    a local file /tmp/7/logs and asks for the contents of the remote
    directory, which fails. No local directory is made, /case/7/logs is
    never listed and b.txt is never fetched. *)
Theorem download_directory_ordinary_directory :
  let w := start [] [] [] {["/tmp/7" := LDir]} in
  let r := download_directory 1000 (sftp_of case7) "/case/7" "/tmp/7" w in
  sftp_listdir_attr (sftp_of case7) "/case/7" =
    inr [Attr "a.txt" mode_file 5; Attr "logs" mode_dir 4096] /\
  mode_bit mode_dir = false /\
  fst r = Raise failure /\
  fs (snd r) !! "/tmp/7/a.txt" = Some (LFile (bytes "hello")) /\
  fs (snd r) !! "/tmp/7/logs" = Some (LFile []) /\
  fs (snd r) !! "/tmp/7/logs/b.txt" = None /\
  calls (trace (snd r)) =
    [EvListdirAttr "/case/7";
     EvOpen "/tmp/7/a.txt" "wb"; EvGetfo "/case/7/a.txt"; EvCloseFile "/tmp/7/a.txt";
     EvOpen "/tmp/7/logs" "wb"; EvGetfo "/case/7/logs"; EvCloseFile "/tmp/7/logs"].
Proof. vm_compute. repeat split. Qed.

(** The same tree is mirrored when its directories happen to carry the bit
    that line 35 tests: the walk itself is right, the constant is not. *)
Lemma download_directory_setuid_directory :
  let w := start [] [] [] {["/tmp/7" := LDir]} in
  let r := download_directory 1000 (sftp_of case7_setuid) "/case/7" "/tmp/7" w in
  fst r = Ok tt /\
  fs (snd r) !! "/tmp/7/a.txt" = Some (LFile (bytes "hello")) /\
  fs (snd r) !! "/tmp/7/logs" = Some LDir /\
  fs (snd r) !! "/tmp/7/logs/b.txt" = Some (LFile (bytes "log")) /\
  calls (trace (snd r)) =
    [EvListdirAttr "/case/7";
     EvOpen "/tmp/7/a.txt" "wb"; EvGetfo "/case/7/a.txt"; EvCloseFile "/tmp/7/a.txt";
     EvMakedirs "/tmp/7/logs"; EvListdirAttr "/case/7/logs";
     EvOpen "/tmp/7/logs/b.txt" "wb"; EvGetfo "/case/7/logs/b.txt";
     EvCloseFile "/tmp/7/logs/b.txt"].
Proof. vm_compute. repeat split. Qed.

(** ** The session *)

(** C5 on the code. Ctrl-C at the first prompt: KeyboardInterrupt is not an
    Exception, so line 144 does not catch it; the finally block then uses
    the name ssh_client, which line 70 has not bound yet, and raises
    NameError. The connection is not closed and the last message is not
    printed. *)
Theorem interrupt_at_username_prompt :
  let r := run (start [Interrupt] [None] [inr (sftp_of case7)] ∅) in
  fst r = Raise (Exn NameError "name 'ssh_client' is not defined") /\
  trace (snd r) = [EvInput prompt_username] /\
  count_occ event_eq_dec (trace (snd r)) EvClose = 0%nat /\
  ~ In (EvPrint (msg_ended +:+ nl)) (trace (snd r)).
Proof.
  vm_compute. repeat split. intros [H|[]]. discriminate.
Qed.

(** C6 on the code. Ctrl-C at the password prompt: no directory is listed,
    but no abort message is printed either; the script ends with the
    NameError of the finally block. *)
Theorem interrupt_at_password_prompt :
  let r := run (start [Line "alice"; Interrupt] [None] [inr (sftp_of case7)] ∅) in
  fst r = Raise (Exn NameError "name 'ssh_client' is not defined") /\
  trace (snd r) = [EvInput prompt_username; EvInput prompt_password] /\
  ~ In (EvPrint (msg_aborted +:+ nl)) (trace (snd r)).
Proof.
  vm_compute. repeat split. intros [H|[H|[]]]; discriminate.
Qed.

(** The sibling path: Ctrl-C while [connect] runs is caught by line 84, the
    abort message is printed and the session is closed. *)
Lemma interrupt_at_connect :
  let r := run (start [Line "alice"; Line "secret"]
                      [Some (Exn KeyboardInterrupt "")] [inr (sftp_of case7)] ∅) in
  fst r = Ok tt /\
  trace (snd r) =
    [EvInput prompt_username; EvInput prompt_password;
     EvConnect hostname port "alice" "secret";
     EvPrint (msg_aborted +:+ nl); EvClose; EvPrint (msg_ended +:+ nl)].
Proof. vm_compute. repeat split. Qed.

(** C7. An answer that is neither yes nor no once lowered: the script
    prints the invalid-choice message and then the completion message, and
    the block ends. Nothing else happens: no file is touched, no further
    line is read, the question is not asked again. *)
Theorem invalid_choice_completes fuel sftp remote_directory local_case_directory
    (w : world) answer rest :
  stdin w = Line answer :: rest ->
  lower answer <> "yes" -> lower answer <> "no" ->
  choose_and_download fuel sftp remote_directory local_case_directory w =
  (Ok tt, emit [EvInput prompt_choice;
               EvPrint (msg_invalid_choice +:+ nl);
               EvPrint (msg_completed +:+ nl)] (set_stdin rest w)).
Proof.
  intros Hin Hy Hn. unfold choose_and_download.
  rewrite (bind_ok _ _ _ _ _ (input_line _ _ _ _ Hin)).
  destruct (decide (lower answer = "yes")) as [|_]; [contradiction|].
  destruct (decide (lower answer = "no")) as [|_]; [contradiction|].
  cbv beta iota delta [bind print print_end log].
  now rewrite !emit_emit.
Qed.

Lemma invalid_choice_completes_witness :
  let w := start [Line "Maybe"; Line "next"] [] [] {["/tmp/7" := LDir]} in
  let r := choose_and_download 5 (sftp_of case7) "/case/7" "/tmp/7" w in
  fst r = Ok tt /\ fs (snd r) = fs w /\ stdin (snd r) = [Line "next"] /\
  trace (snd r) = [EvInput prompt_choice; EvPrint (msg_invalid_choice +:+ nl);
                   EvPrint (msg_completed +:+ nl)].
Proof.
  intros w r. unfold r.
  rewrite (invalid_choice_completes 5 (sftp_of case7) "/case/7" "/tmp/7" w
             "Maybe" [Line "next"]).
  - repeat split.
  - reflexivity.
  - vm_compute. discriminate.
  - vm_compute. discriminate.
Defined.

(** ** Composing what computations do to the world *)

Section Evolves.
Variable P : event -> Prop.
Abbreviation evolves := (evolves P).
Abbreviation keeps := (keeps P).

Lemma evolves_refl w : evolves w w.
Proof.
  repeat split; auto. exists []. split; [now rewrite app_nil_r|constructor].
Qed.

Lemma evolves_trans w1 w2 w3 : evolves w1 w2 -> evolves w2 w3 -> evolves w1 w3.
Proof.
  intros ((e1 & H1 & F1) & B1 & L1) ((e2 & H2 & F2) & B2 & L2).
  repeat split; [|auto|lia].
  exists (e1 ++ e2). split.
  - now rewrite H2, H1, app_assoc.
  - now apply Forall_app.
Qed.

Lemma evolves_emit e w : P e -> evolves w (emit [e] w).
Proof.
  intros He. repeat split; auto. exists [e]. split; [reflexivity|].
  now constructor.
Qed.

Lemma keeps_ret {A} (a : A) : keeps (ret a).
Proof. intros w. apply evolves_refl. Qed.

Lemma keeps_raise {A} e : keeps (@raise A e).
Proof. intros w. apply evolves_refl. Qed.

Lemma keeps_diverge {A} : keeps (@diverge A).
Proof. intros w. apply evolves_refl. Qed.

Lemma keeps_lift {A} (r : exn + A) : keeps (lift r).
Proof. destruct r; [apply keeps_raise|apply keeps_ret]. Qed.

Lemma keeps_bind {A B} (m : M A) (k : A -> M B) :
  keeps m -> (forall a, keeps (k a)) -> keeps (bind m k).
Proof.
  intros Hm Hk w. unfold bind. specialize (Hm w).
  destruct (m w) as [[a| |] w']; simpl in *; [|assumption..].
  eapply evolves_trans; [eassumption|apply Hk].
Qed.

Lemma keeps_log e : P e -> keeps (log e).
Proof. intros He w. now apply evolves_emit. Qed.

Lemma keeps_handle {A} (clauses : list (exn_class * (exn -> M A))) e :
  Forall (fun ch => forall e', keeps (snd ch e')) clauses -> keeps (handle clauses e).
Proof.
  induction 1 as [|[c h] l Hh _ IH]; simpl; [apply keeps_raise|].
  destruct (isinstance e c); [apply Hh|apply IH].
Qed.

Lemma keeps_try_except {A} (m : M A) clauses :
  keeps m -> Forall (fun ch => forall e', keeps (snd ch e')) clauses ->
  keeps (try_except m clauses).
Proof.
  intros Hm Hc w. unfold try_except. specialize (Hm w).
  destruct (m w) as [[a|e|] w']; simpl in *; try assumption.
  eapply evolves_trans; [eassumption|now apply keeps_handle].
Qed.

Lemma keeps_try_finally {A} (m : M A) f :
  keeps m -> keeps f -> keeps (try_finally m f).
Proof.
  intros Hm Hf w. unfold try_finally. specialize (Hm w).
  destruct (m w) as [[a|e|] w']; simpl in *; try assumption;
    specialize (Hf w'); destruct (f w') as [[[]|e'|] w'']; simpl in *;
    eapply evolves_trans; eassumption.
Qed.

Lemma keeps_for_each {A} (l : list A) body :
  (forall x, In x l -> keeps (body x)) -> keeps (for_each l body).
Proof.
  induction l as [|x l IH]; intros Hb; simpl; [apply keeps_ret|].
  apply keeps_bind; [apply Hb; now left|].
  intros _. apply IH. intros y Hy. apply Hb. now right.
Qed.

(** A step that leaves the trace and the name alone and gives no input
    back. *)
Lemma keeps_quiet {A} (m : M A) :
  (forall w, trace (snd (m w)) = trace w /\
             ssh_client_bound (snd (m w)) = ssh_client_bound w /\
             (length (stdin (snd (m w))) <= length (stdin w))%nat) ->
  keeps m.
Proof.
  intros H w. destruct (H w) as (Ht & Hb & Hl).
  repeat split; [|congruence|assumption].
  exists []. split; [now rewrite app_nil_r|constructor].
Qed.

End Evolves.

Lemma keeps_weaken (P Q : event -> Prop) {A} (m : M A) :
  (forall e, P e -> Q e) -> keeps P m -> keeps Q m.
Proof.
  intros HPQ Hm w. destruct (Hm w) as ((evs & Ht & Hf) & Hb & Hl).
  repeat split; [|assumption..].
  exists evs. split; [assumption|]. eapply Forall_impl; eassumption.
Qed.

(** *** The built-ins *)

Section Builtins.
Variable P : event -> Prop.

Lemma keeps_print_end text e : P (EvPrint (text +:+ e)) -> keeps P (print_end text e).
Proof. apply keeps_log. Qed.

Lemma keeps_print text : P (EvPrint (text +:+ nl)) -> keeps P (print text).
Proof. apply keeps_log. Qed.

Lemma keeps_input prompt : P (EvInput prompt) -> keeps P (input prompt).
Proof.
  intros Hp. apply keeps_bind; [now apply keeps_log|]. intros _.
  apply keeps_quiet. intros w.
  destruct (stdin w) as [|[s|] rest] eqn:E; simpl; rewrite ?E; simpl;
    repeat split; lia.
Qed.

Lemma keeps_new_ssh_client : keeps P new_ssh_client.
Proof.
  intros w. repeat split; simpl; auto.
  exists []. split; [now rewrite app_nil_r|constructor].
Qed.

Lemma keeps_ssh_connect host p u pw :
  P (EvConnect host p u pw) -> keeps P (ssh_connect host p u pw).
Proof.
  intros Hp. apply keeps_bind; [now apply keeps_log|]. intros _.
  apply keeps_quiet. intros w.
  destruct (connects w) as [|[e|] rest]; simpl; repeat split; lia.
Qed.

Lemma keeps_open_sftp : P EvOpenSftp -> keeps P open_sftp.
Proof.
  intros Hp. apply keeps_bind; [now apply keeps_log|]. intros _.
  apply keeps_quiet. intros w.
  destruct (sftps w) as [|[e|c] rest]; simpl; repeat split; lia.
Qed.

Lemma keeps_with_sftp {A} (body : SFTPClient -> M A) :
  P EvOpenSftp -> P EvCloseSftp -> (forall sftp, keeps P (body sftp)) ->
  keeps P (with_sftp body).
Proof.
  intros H1 H2 Hb. apply keeps_bind; [now apply keeps_open_sftp|].
  intros sftp. apply keeps_try_finally; [apply Hb|now apply keeps_log].
Qed.

Lemma keeps_ssh_client_close : P EvClose -> keeps P ssh_client_close.
Proof.
  intros Hp w. unfold ssh_client_close.
  destruct (ssh_client_bound w); [now apply keeps_log|apply evolves_refl].
Qed.

Lemma keeps_listdir_attr sftp path :
  P (EvListdirAttr path) -> keeps P (listdir_attr sftp path).
Proof.
  intros Hp. apply keeps_bind; [now apply keeps_log|]. intros _. apply keeps_lift.
Qed.

Lemma keeps_listdir sftp path : P (EvListdir path) -> keeps P (listdir sftp path).
Proof.
  intros Hp. apply keeps_bind; [now apply keeps_log|]. intros _. apply keeps_lift.
Qed.

Lemma keeps_stat sftp path : P (EvStat path) -> keeps P (stat sftp path).
Proof.
  intros Hp. apply keeps_bind; [now apply keeps_log|]. intros _. apply keeps_lift.
Qed.

Lemma keeps_os_path_exists path : keeps P (os_path_exists path).
Proof. intros w. apply evolves_refl. Qed.

Lemma keeps_os_path_expanduser path : keeps P (os_path_expanduser path).
Proof. intros w. apply evolves_refl. Qed.

Lemma keeps_os_makedirs path exist_ok :
  P (EvMakedirs path) -> keeps P (os_makedirs path exist_ok).
Proof.
  intros Hp. apply keeps_bind; [now apply keeps_log|]. intros _.
  apply keeps_quiet. intros w.
  destruct (fs w !! path) as [[|c]|]; [destruct exist_ok|..]; simpl;
    repeat split; lia.
Qed.

Lemma keeps_py_open path mode : P (EvOpen path mode) -> keeps P (py_open path mode).
Proof.
  intros Hp. apply keeps_bind; [now apply keeps_log|]. intros _.
  apply keeps_quiet. intros w.
  destruct (decide (mode = "wb")); [|destruct (decide (mode = "xb"))];
    destruct (fs w !! path) as [[|c]|]; simpl; repeat split; lia.
Qed.

Lemma keeps_with_open {A} path mode (body : string -> M A) :
  P (EvOpen path mode) -> P (EvCloseFile path) -> (forall f, keeps P (body f)) ->
  keeps P (with_open path mode body).
Proof.
  intros H1 H2 Hb. unfold with_open, bind. intros w.
  pose proof (keeps_py_open path mode H1 w) as Ho.
  destruct (py_open path mode w) as [[f| |] w'] eqn:E; simpl in *; try assumption.
  assert (f = path) as ->.
  { revert E. unfold py_open, bind, log.
    repeat case_decide; repeat case_match; congruence. }
  eapply evolves_trans; [eassumption|].
  apply keeps_try_finally; [apply Hb|now apply keeps_log].
Qed.

Lemma keeps_file_write f data : keeps P (file_write f data).
Proof.
  apply keeps_quiet. intros w. unfold file_write.
  destruct (fs w !! f) as [[|c]|]; simpl; repeat split; lia.
Qed.

Lemma keeps_transfer chunks : forall f size file_size callback,
  (forall x y, keeps P (callback x y)) ->
  keeps P (transfer chunks f size file_size callback).
Proof.
  induction chunks as [|data chunks IH]; intros f size file_size callback Hc; simpl.
  - apply keeps_bind; [apply keeps_file_write|]. intros _. apply keeps_ret.
  - apply keeps_bind; [apply keeps_file_write|]. intros _.
    destruct (decide (data = [])); [apply keeps_ret|].
    apply keeps_bind; [apply Hc|]. intros _. now apply IH.
Qed.

Lemma keeps_getfo sftp remote_path f callback :
  P (EvGetfo remote_path) -> (forall x y, keeps P (callback x y)) ->
  keeps P (getfo sftp remote_path f callback).
Proof.
  intros Hp Hc. apply keeps_bind; [now apply keeps_log|]. intros _.
  apply keeps_bind; [apply keeps_lift|]. intros a.
  apply keeps_bind; [apply keeps_lift|]. intros chunks.
  now apply keeps_transfer.
Qed.

Hypothesis P_print : forall text, P (EvPrint text).

Lemma keeps_print_progress x y z : keeps P (print_progress x y z).
Proof.
  unfold print_progress. destruct (decide (z = 0)); [apply keeps_raise|].
  apply keeps_bind; [apply keeps_lift|]. intros a.
  apply keeps_bind; [apply keeps_lift|]. intros b.
  apply keeps_print_end, P_print.
Qed.

Lemma keeps_download_file sftp remote_path local_path item :
  P (EvOpen local_path "wb") -> P (EvCloseFile local_path) -> P (EvGetfo remote_path) ->
  keeps P (download_file sftp remote_path local_path item).
Proof.
  intros H1 H2 H3. unfold download_file.
  apply keeps_bind; [apply keeps_lift|]. intros shown.
  apply keeps_bind; [apply keeps_print, P_print|]. intros _.
  apply keeps_bind; [|intros _; apply keeps_print, P_print].
  apply keeps_with_open; try assumption. intros f.
  apply keeps_getfo; [assumption|]. intros x y. apply keeps_print_progress.
Qed.

End Builtins.

(** *** The walk *)

(** Whatever the server answers, a walk calls the server and the local
    file system only for its root and for entries that are not excluded. *)
Lemma keeps_download_directory root sftp depth : forall remote_dir local_dir,
  remote_dir = root \/ child remote_dir ->
  keeps (walk_event root) (download_directory depth sftp remote_dir local_dir).
Proof.
  induction depth as [|depth IH]; intros remote_dir local_dir Hr; simpl.
  - apply keeps_raise.
  - apply keeps_bind; [now apply keeps_listdir_attr|]. intros items.
    apply keeps_for_each. intros item _. unfold download_item.
    destruct (should_exclude (filename item)) eqn:E; simpl; [apply keeps_ret|].
    assert (Hc : forall d, child (path_join d (filename item)))
      by (intros d; exists d, (filename item); auto).
    destruct (mode_bit (st_mode item)).
    + apply keeps_bind; [apply keeps_os_makedirs; simpl; auto|].
      intros _. apply IH. right. apply Hc.
    + apply keeps_download_file; simpl; auto.
Qed.

(** *** The session up to the finally block *)

Lemma walk_event_not_close root e : walk_event root e -> not_close e.
Proof. destruct e; simpl; intros H; try contradiction; discriminate. Qed.


Lemma keeps_connect_step username password :
  keeps not_close (connect_step username password).
Proof.
  unfold connect_step. apply keeps_try_except.
  - apply keeps_bind; [apply keeps_ssh_connect; other_event|]. intros _.
    apply keeps_bind; [apply keeps_print; other_event|]. intros _. apply keeps_ret.
  - each_clause;
      (apply keeps_bind; [apply keeps_print; other_event|]); intros _; apply keeps_ret.
Qed.

Lemma keeps_ask_filename sftp remote_directory local_case_directory fuel :
  keeps not_close (ask_filename fuel sftp remote_directory local_case_directory).
Proof.
  induction fuel as [|fuel IH]; simpl; [apply keeps_diverge|].
  apply keeps_bind; [apply keeps_input; other_event|]. intros filename.
  apply keeps_bind.
  - apply keeps_try_except.
    + apply keeps_bind; [apply keeps_stat; other_event|]. intros _. apply keeps_ret.
    + each_clause.
      apply keeps_bind; [apply keeps_print; other_event|]. intros _. apply keeps_ret.
  - intros [|]; [apply keeps_ret|apply IH].
Qed.

Lemma keeps_download_single sftp filename remote_file_path local_file_path :
  keeps not_close (download_single sftp filename remote_file_path local_file_path).
Proof.
  unfold download_single.
  apply keeps_bind; [|intros _; apply keeps_print; other_event].
  apply keeps_with_open; try other_event. intros f.
  apply keeps_bind; [apply keeps_stat; other_event|]. intros a.
  apply keeps_getfo; [other_event|]. intros x y.
  apply keeps_print_progress. intros text. other_event.
Qed.

Lemma keeps_choose_and_download fuel sftp remote_directory local_case_directory :
  keeps not_close (choose_and_download fuel sftp remote_directory local_case_directory).
Proof.
  unfold choose_and_download.
  apply keeps_bind; [apply keeps_input; other_event|]. intros answer.
  apply keeps_bind; [|intros _; apply keeps_print; other_event].
  destruct (decide (lower answer = "yes")); [|destruct (decide (lower answer = "no"))].
  - intros w.
    apply (keeps_weaken (walk_event remote_directory) not_close);
      [apply walk_event_not_close|].
    apply keeps_download_directory. now left.
  - apply keeps_bind; [apply keeps_ask_filename|]. intros [[a b] c].
    apply keeps_download_single.
  - apply keeps_print. other_event.
Qed.

Lemma keeps_case_body fuel case_number local_parent_directory sftp :
  keeps not_close (case_body fuel case_number local_parent_directory sftp).
Proof.
  unfold case_body. apply keeps_bind.
  - apply keeps_try_except.
    + apply keeps_bind; [apply keeps_listdir; other_event|]. intros _. apply keeps_ret.
    + each_clause.
      apply keeps_bind; [apply keeps_print; other_event|]. intros _. apply keeps_ret.
  - intros [|]; simpl; [|apply keeps_ret].
    apply keeps_bind; [apply keeps_os_path_expanduser|]. intros parent.
    apply keeps_bind; [apply keeps_os_path_exists|]. intros present.
    apply keeps_bind.
    { destruct present; simpl; [apply keeps_ret|apply keeps_os_makedirs; other_event]. }
    intros _. apply keeps_bind; [apply keeps_listdir; other_event|]. intros contents.
    apply keeps_bind; [apply keeps_print; other_event|]. intros _.
    apply keeps_bind; [apply keeps_print; other_event|]. intros _.
    apply keeps_bind.
    { apply keeps_for_each. intros item _. apply keeps_print. other_event. }
    intros _. apply keeps_bind; [apply keeps_print; other_event|]. intros _.
    apply keeps_bind; [apply keeps_choose_and_download|]. intros _. apply keeps_ret.
Qed.

Lemma keeps_case_step fuel : keeps not_close (case_step fuel).
Proof.
  unfold case_step. apply keeps_try_except.
  - apply keeps_bind; [apply keeps_input; other_event|]. intros case_number.
    apply keeps_bind; [apply keeps_input; other_event|]. intros parent.
    apply keeps_with_sftp; try other_event. intros sftp. apply keeps_case_body.
  - each_clause.
    apply keeps_bind; [apply keeps_print; other_event|]. intros _. apply keeps_ret.
Qed.

Lemma keeps_session_loop username password fuel :
  keeps not_close (session_loop fuel username password).
Proof.
  induction fuel as [|fuel IH]; simpl; [apply keeps_diverge|].
  apply keeps_bind; [apply keeps_connect_step|]. intros [|]; [|apply keeps_ret].
  apply keeps_bind; [apply keeps_case_step|]. intros [|]; [apply IH|apply keeps_ret].
Qed.

(** *** A case directory that does not exist *)

Lemma connect_step_ok username password w cs :
  connects w = None :: cs ->
  connect_step username password w =
  (Ok Next, emit [EvConnect hostname port username password;
                 EvPrint (msg_established +:+ nl)] (set_connects cs w)).
Proof.
  intros Hc. destruct w as [i c s f h l b t]. simpl in Hc. subst c.
  run_steps. now rewrite <- app_assoc.
Qed.

(** The first thing [case_step] does is to ask for the case number. *)
Lemma case_step_prompts fuel w :
  exists evs, trace (snd (case_step fuel w)) = trace w ++ EvInput prompt_case :: evs.
Proof.
  set (rest_of_step :=
    try_except
      (let* case_number :=
         (fun w => match stdin w with
                   | [] => (Raise (Exn EOFError "EOF when reading a line"), w)
                   | Line s :: rest => (Ok s, set_stdin rest w)
                   | Interrupt :: rest =>
                       (Raise (Exn KeyboardInterrupt ""), set_stdin rest w)
                   end) in
       let* local_parent_directory := input prompt_parent in
       with_sftp (case_body fuel case_number local_parent_directory))
      [ (KeyboardInterrupt, fun _ => print msg_aborted;;; ret Break) ]).
  assert (Hk : keeps (fun _ => True) rest_of_step).
  { apply keeps_try_except.
    - apply keeps_bind.
      + apply keeps_quiet. intros w0.
        destruct (stdin w0) as [|[s|] rest] eqn:E; simpl; rewrite ?E; simpl;
          repeat split; lia.
      + intros case_number. apply keeps_bind; [now apply keeps_input|].
        intros parent. apply keeps_with_sftp; try exact I. intros sftp.
        apply (keeps_weaken not_close); [auto|apply keeps_case_body].
    - each_clause. apply keeps_bind; [now apply keeps_print|].
      intros _. apply keeps_ret. }
  replace (case_step fuel w) with (rest_of_step (emit [EvInput prompt_case] w))
    by reflexivity.
  destruct (Hk (emit [EvInput prompt_case] w)) as ((evs & Ht & _) & _).
  exists evs. rewrite Ht. simpl. now rewrite <- app_assoc.
Qed.

(** After a connection that succeeds, the loop asks for a case number. *)
Lemma session_loop_prompts fuel username password w cs :
  connects w = None :: cs ->
  exists evs,
    trace (snd (session_loop (S fuel) username password w)) =
    trace w ++ [EvConnect hostname port username password;
                EvPrint (msg_established +:+ nl); EvInput prompt_case] ++ evs.
Proof.
  intros Hc. simpl.
  rewrite (bind_ok _ _ _ _ _ (connect_step_ok username password w cs Hc)).
  set (w1 := emit _ _).
  destruct (case_step_prompts fuel w1) as (evs & Hevs).
  unfold bind. destruct (case_step fuel w1) as [[[|]|e|] w2]; simpl in *.
  - destruct (keeps_session_loop username password fuel w2) as ((evs' & Ht & _) & _).
    exists (evs ++ evs'). rewrite Ht, Hevs. unfold w1. simpl.
    now rewrite <- !app_assoc.
  - exists evs. rewrite Hevs. unfold w1. simpl. now rewrite <- !app_assoc.
  - exists evs. rewrite Hevs. unfold w1. simpl. now rewrite <- !app_assoc.
  - exists evs. rewrite Hevs. unfold w1. simpl. now rewrite <- !app_assoc.
Qed.

(** One pass of the loop when the listing of the case directory fails. *)
Lemma missing_directory_pass fuel username password w case_number parent rest cs
    sftp ss e :
  stdin w = Line case_number :: Line parent :: rest ->
  connects w = None :: cs ->
  sftps w = inr sftp :: ss ->
  sftp_listdir sftp ("/case/" +:+ case_number) = inl e ->
  isinstance e OSError = true ->
  session_loop (S fuel) username password w =
  session_loop fuel username password
    (emit [EvConnect hostname port username password;
           EvPrint (msg_established +:+ nl);
           EvInput prompt_case; EvInput prompt_parent;
           EvOpenSftp; EvListdir ("/case/" +:+ case_number);
           EvPrint (msg_no_directory case_number +:+ nl);
           EvCloseSftp]
          (set_sftps ss (set_connects cs (set_stdin rest w)))).
Proof.
  intros Hi Hc Hs Hl He.
  destruct w as [i c s f h l b t]. simpl in Hi, Hc, Hs. subst i c s.
  cbn [session_loop].
  erewrite bind_ok by (apply connect_step_ok; reflexivity).
  run_steps. rewrite Hl. run_steps. rewrite He. run_steps.
  f_equal. f_equal. now rewrite <- !app_assoc.
Qed.

(** C8 as stated fails. Case 8 does not exist and the connection that the
    loop makes again on its way back to the prompt fails: the script
    reports the missing directory, the second [connect] raises
    SSHException, the loop is left and the connection closed. The case
    number is asked once only, although another one was waiting. *)
Lemma missing_directory_no_reprompt :
  let w := start [Line "alice"; Line "secret"; Line "8"; Line "/tmp";
                  Line "7"; Line "/tmp"; Line "no"; Line "a.txt"]
                 [None; Some (Exn SSHException "Connection lost")]
                 [inr (sftp_of case7); inr (sftp_of case7)] ∅ in
  let r := run w in
  fst r = Ok tt /\
  trace (snd r) =
    [EvInput prompt_username; EvInput prompt_password;
     EvConnect hostname port "alice" "secret"; EvPrint (msg_established +:+ nl);
     EvInput prompt_case; EvInput prompt_parent;
     EvOpenSftp; EvListdir "/case/8"; EvPrint (msg_no_directory "8" +:+ nl);
     EvCloseSftp;
     EvConnect hostname port "alice" "secret"; EvPrint (msg_ssh_failed +:+ nl);
     EvClose; EvPrint (msg_ended +:+ nl)] /\
  count_occ event_eq_dec (trace (snd r)) (EvInput prompt_case) = 1%nat /\
  stdin (snd r) = [Line "7"; Line "/tmp"; Line "no"; Line "a.txt"].
Proof. vm_compute. repeat split. Qed.

(** C8, amended. When the listing of /case/<case_number> fails with an
    IOError, the script prints that the directory does not exist, leaves
    the with block (which closes the SFTP session, not the connection) and
    goes on with the next pass of the connection loop: the session is not
    left and close is not called. That pass starts with connect again, and
    when this connect succeeds the case number is asked again. *)
Theorem missing_directory_loops_back fuel username password (w : world)
    case_number parent rest cs sftp ss e :
  stdin w = Line case_number :: Line parent :: rest ->
  connects w = None :: cs ->
  sftps w = inr sftp :: ss ->
  sftp_listdir sftp ("/case/" +:+ case_number) = inl e ->
  isinstance e OSError = true ->
  let pass :=
    [EvConnect hostname port username password; EvPrint (msg_established +:+ nl);
     EvInput prompt_case; EvInput prompt_parent;
     EvOpenSftp; EvListdir ("/case/" +:+ case_number);
     EvPrint (msg_no_directory case_number +:+ nl);
     EvCloseSftp] in
  let w' := emit pass (set_sftps ss (set_connects cs (set_stdin rest w))) in
  session_loop (S (S fuel)) username password w =
    session_loop (S fuel) username password w' /\
  Forall not_close pass /\
  (forall cs', cs = None :: cs' ->
   exists evs,
     trace (snd (session_loop (S (S fuel)) username password w)) =
     trace w ++ pass ++
     [EvConnect hostname port username password; EvPrint (msg_established +:+ nl);
      EvInput prompt_case] ++ evs).
Proof.
  intros Hi Hc Hs Hl He pass w'.
  pose proof (missing_directory_pass (S fuel) username password w case_number
                parent rest cs sftp ss e Hi Hc Hs Hl He) as Hpass.
  fold pass in Hpass. fold w' in Hpass.
  split; [exact Hpass|split].
  - unfold pass. repeat constructor; discriminate.
  - intros cs' ->. rewrite Hpass.
    destruct (session_loop_prompts fuel username password w' cs' eq_refl)
      as (evs & Hevs).
    exists evs. rewrite Hevs. unfold w'. simpl. now rewrite <- app_assoc.
Qed.

Lemma missing_directory_loops_back_witness :
  let w := set_bound true
             (start [Line "8"; Line "/tmp"; Line "7"; Line "/tmp"; Line "maybe"]
                    [None; None] [inr (sftp_of case7); inr (sftp_of case7)] ∅) in
  exists evs,
    trace (snd (session_loop 6 "alice" "secret" w)) =
    [EvConnect hostname port "alice" "secret"; EvPrint (msg_established +:+ nl);
     EvInput prompt_case; EvInput prompt_parent;
     EvOpenSftp; EvListdir "/case/8"; EvPrint (msg_no_directory "8" +:+ nl);
     EvCloseSftp;
     EvConnect hostname port "alice" "secret"; EvPrint (msg_established +:+ nl);
     EvInput prompt_case] ++ evs.
Proof.
  intros w.
  destruct (missing_directory_loops_back 4 "alice" "secret" w "8" "/tmp"
              [Line "7"; Line "/tmp"; Line "maybe"] [None]
              (sftp_of case7) [inr (sftp_of case7)] no_such_file)
    as (_ & _ & H); try reflexivity.
  destruct (H [] eq_refl) as (evs & Hevs).
  exists evs. exact Hevs.
Defined.

(** *** Writing onto a local file that exists *)

Lemma py_open_wb_file path old w :
  fs w !! path = Some (LFile old) ->
  py_open path "wb" w =
  (Ok path, emit [EvOpen path "wb"] (set_fs (<[path := LFile []]> (fs w)) w)).
Proof.
  intros Hf. destruct w as [i c s f h l b t]. simpl in Hf.
  unfold py_open, bind, log. simpl. now rewrite Hf.
Qed.

Lemma py_open_wb_absent path w :
  fs w !! path = None ->
  py_open path "wb" w =
  (Ok path, emit [EvOpen path "wb"] (set_fs (<[path := LFile []]> (fs w)) w)).
Proof.
  intros Hf. destruct w as [i c s f h l b t]. simpl in Hf.
  unfold py_open, bind, log. simpl. now rewrite Hf.
Qed.

(** Opening with 'wb' forgets what the file held: the block runs as it
    does when the path is free. *)
Lemma with_open_wb_forgets {A} path (body : string -> M A) old w :
  fs w !! path = Some (LFile old) ->
  with_open path "wb" body w =
  with_open path "wb" body (set_fs (delete path (fs w)) w).
Proof.
  intros Hf. unfold with_open.
  rewrite (bind_ok _ _ _ _ _ (py_open_wb_file path old w Hf)).
  erewrite bind_ok by (apply py_open_wb_absent; simpl; apply lookup_delete_eq).
  simpl. rewrite insert_delete_eq. reflexivity.
Qed.

(** print_progress only prints. *)
Lemma print_progress_fs x y z w :
  fs (snd (print_progress x y z w)) = fs w.
Proof.
  unfold print_progress. destruct (decide (z = 0)); [reflexivity|].
  unfold bind, lift.
  destruct (format_size (inject_Z x)); [reflexivity|].
  destruct (format_size (inject_Z z)); reflexivity.
Qed.

Lemma transfer_cons data chunks f size file_size callback old w :
  fs w !! f = Some (LFile old) ->
  transfer (data :: chunks) f size file_size callback w =
  (if decide (data = []) then ret (size + Z.of_nat (length data))
   else callback (size + Z.of_nat (length data)) file_size;;;
        transfer chunks f (size + Z.of_nat (length data)) file_size callback)
    (set_fs (<[f := LFile (old ++ data)]> (fs w)) w).
Proof.
  intros Hf. simpl. unfold bind at 1. unfold file_write. now rewrite Hf.
Qed.

(** What [transfer] leaves in the file: the old contents and then the
    chunks written; all that is to receive when it ends normally. *)
Lemma transfer_content z chunks : forall f size file_size w old,
  fs w !! f = Some (LFile old) ->
  exists data,
    fs (snd (transfer chunks f size file_size (fun x y => print_progress x y z) w)) !! f
      = Some (LFile (old ++ data)) /\
    (forall n, fst (transfer chunks f size file_size
                      (fun x y => print_progress x y z) w) = Ok n ->
               data = received chunks).
Proof.
  induction chunks as [|data chunks IH]; intros f size file_size w old Hf.
  - exists []. simpl. unfold bind, file_write. rewrite Hf. simpl.
    rewrite lookup_insert_eq. auto.
  - rewrite (transfer_cons _ _ _ _ _ _ old w Hf). simpl received.
    destruct (decide (data = [])) as [->|Hne].
    + exists []. simpl. rewrite lookup_insert_eq. auto.
    + set (w1 := set_fs _ w).
      assert (H1 : fs w1 !! f = Some (LFile (old ++ data)))
        by (unfold w1; simpl; apply lookup_insert_eq).
      unfold bind.
      pose proof (print_progress_fs (size + Z.of_nat (length data)) file_size z w1) as Hp.
      destruct (print_progress _ _ _ w1) as [[[]|e|] w2];
        change (fs w2 = fs w1) in Hp.
      * rewrite <- Hp in H1.
        destruct (IH f (size + Z.of_nat (length data)) file_size w2 _ H1)
          as (rest & Hrest & Hok).
        exists (data ++ rest). rewrite app_assoc. split; [assumption|].
        intros n Hn. now rewrite (Hok n Hn).
      * exists data. simpl. rewrite Hp. split; [assumption|discriminate].
      * exists data. simpl. rewrite Hp. split; [assumption|discriminate].
Qed.

Lemma getfo_content sftp remote_path f z old w n :
  fs w !! f = Some (LFile old) ->
  fst (getfo sftp remote_path f (fun x y => print_progress x y z) w) = Ok n ->
  exists chunks,
    sftp_read sftp remote_path = inr chunks /\
    fs (snd (getfo sftp remote_path f (fun x y => print_progress x y z) w)) !! f
      = Some (LFile (old ++ received chunks)).
Proof.
  intros Hf. unfold getfo, bind, log, lift. cbn beta iota.
  destruct (sftp_stat sftp remote_path) as [e|a]; [discriminate|].
  destruct (sftp_read sftp remote_path) as [e|chunks]; [discriminate|].
  cbn beta iota delta [ret]. intros Hn. exists chunks. split; [reflexivity|].
  destruct (transfer_content z chunks f 0 (st_size a) (emit [EvGetfo remote_path] w)
              old Hf) as (data & Hd & Hok).
  now rewrite <- (Hok n Hn).
Qed.

(** A file transfer of the walker that ends normally leaves in the local
    file exactly what was received. *)
Lemma download_file_content sftp remote_path local_path item old w w' :
  fs w !! local_path = Some (LFile old) ->
  download_file sftp remote_path local_path item w = (Ok tt, w') ->
  exists chunks,
    sftp_read sftp remote_path = inr chunks /\
    fs w' !! local_path = Some (LFile (received chunks)).
Proof.
  intros Hf. unfold download_file. unfold bind at 1. unfold lift.
  destruct (format_size (inject_Z (st_size item))) as [e|shown];
    [discriminate|]. cbn beta iota delta [ret].
  unfold bind at 1. rewrite print_run. set (w1 := emit _ w).
  unfold bind at 1. unfold with_open.
  rewrite (bind_ok _ _ _ _ _ (py_open_wb_file local_path old w1 Hf)).
  set (w2 := emit _ _).
  assert (H2 : fs w2 !! local_path = Some (LFile []))
    by (unfold w2; simpl; apply lookup_insert_eq).
  unfold try_finally.
  pose proof (getfo_content sftp remote_path local_path (st_size item) [] w2) as Hg.
  destruct (getfo sftp remote_path local_path _ w2) as [[n|e|] w3];
    simpl; try discriminate.
  intros Heq. injection Heq as <-.
  destruct (Hg n H2 eq_refl) as (chunks & Hr & Hc).
  exists chunks. split; [assumption|]. exact Hc.
Qed.

(** The same for the transfer of a single file. *)
Lemma download_single_content sftp filename remote_path local_path old w w' :
  fs w !! local_path = Some (LFile old) ->
  download_single sftp filename remote_path local_path w = (Ok tt, w') ->
  exists chunks,
    sftp_read sftp remote_path = inr chunks /\
    fs w' !! local_path = Some (LFile (received chunks)).
Proof.
  intros Hf. unfold download_single. unfold bind at 1. unfold with_open.
  rewrite (bind_ok _ _ _ _ _ (py_open_wb_file local_path old w Hf)).
  set (w2 := emit _ _).
  assert (H2 : fs w2 !! local_path = Some (LFile []))
    by (unfold w2; simpl; apply lookup_insert_eq).
  unfold try_finally, stat. unfold bind at 1. unfold bind at 1.
  unfold log, lift.
  destruct (sftp_stat sftp remote_path) as [e|a]; [discriminate|].
  cbn beta iota delta [ret].
  pose proof (getfo_content sftp remote_path local_path (st_size a) []
                (emit [EvStat remote_path] w2)) as Hg.
  destruct (getfo sftp remote_path local_path _ (emit [EvStat remote_path] w2))
    as [[n|e|] w3]; simpl; try discriminate.
  intros Heq. injection Heq as <-.
  destruct (Hg n H2 eq_refl) as (chunks & Hr & Hc).
  exists chunks. split; [assumption|]. exact Hc.
Qed.

(** C9 as stated fails. The local files /tmp/9/a.txt and /tmp/9/b.txt
    exist. The walk over case 9 and the transfer of the single file both
    end normally, and each file now holds the remote contents: the open
    did not fail and the old contents are gone. *)
Lemma transfer_onto_existing_file :
  let w := start [] [] []
             (<["/tmp/9" := LDir]>
              (<["/tmp/9/a.txt" := LFile (bytes "old contents")]>
               (<["/tmp/9/b.txt" := LFile (bytes "old contents")]> ∅))) in
  let walk := download_directory 1000 (sftp_of case9) "/case/9" "/tmp/9" w in
  let single := download_single (sftp_of case9) "a.txt" "/case/9/a.txt" "/tmp/9/b.txt" w in
  fst walk = Ok tt /\
  In (EvOpen "/tmp/9/a.txt" "wb") (trace (snd walk)) /\
  fs (snd walk) !! "/tmp/9/a.txt" = Some (LFile (bytes "hello")) /\
  fst single = Ok tt /\
  In (EvOpen "/tmp/9/b.txt" "wb") (trace (snd single)) /\
  fs (snd single) !! "/tmp/9/b.txt" = Some (LFile (bytes "hello")).
Proof. vm_compute. tauto. Qed.

(** C9, amended. Both transfers open the local file with mode 'wb', which
    creates the file or empties the one that is there. On a path that holds
    a file the open succeeds and leaves it empty, the transfer runs exactly
    as on a free path, and when it ends normally the file holds what was
    received and nothing of the old contents. *)
Theorem transfer_replaces_existing_file sftp filename remote_path local_path item
    old shown (w : world) :
  fs w !! local_path = Some (LFile old) ->
  format_size (inject_Z (st_size item)) = inr shown ->
  py_open local_path "wb" w =
    (Ok local_path,
     emit [EvOpen local_path "wb"] (set_fs (<[local_path := LFile []]> (fs w)) w)) /\
  download_file sftp remote_path local_path item w =
    download_file sftp remote_path local_path item
      (set_fs (delete local_path (fs w)) w) /\
  download_single sftp filename remote_path local_path w =
    download_single sftp filename remote_path local_path
      (set_fs (delete local_path (fs w)) w) /\
  (forall w', download_file sftp remote_path local_path item w = (Ok tt, w') ->
     exists chunks, sftp_read sftp remote_path = inr chunks /\
                    fs w' !! local_path = Some (LFile (received chunks))) /\
  (forall w', download_single sftp filename remote_path local_path w = (Ok tt, w') ->
     exists chunks, sftp_read sftp remote_path = inr chunks /\
                    fs w' !! local_path = Some (LFile (received chunks))).
Proof.
  intros Hf Hs. split; [now apply (py_open_wb_file _ old)|].
  split; [|split; [|split]].
  - unfold download_file, bind, lift. rewrite Hs. cbn beta iota delta [ret].
    rewrite !print_run. cbn beta iota.
    match goal with
    | |- context [with_open _ _ _ (emit ?l w)] =>
        rewrite (with_open_wb_forgets local_path _ old (emit l w) Hf)
    end.
    reflexivity.
  - unfold download_single, bind.
    rewrite (with_open_wb_forgets local_path _ old w Hf).
    reflexivity.
  - intros w'. now apply download_file_content with (old := old).
  - intros w'. now apply download_single_content with (old := old).
Qed.

Lemma transfer_replaces_existing_file_witness :
  let w := start [] [] []
             (<["/tmp/9" := LDir]>
              (<["/tmp/9/a.txt" := LFile (bytes "old contents")]> ∅)) in
  download_file (sftp_of case9) "/case/9/a.txt" "/tmp/9/a.txt"
    (Attr "a.txt" mode_file 5) w =
  download_file (sftp_of case9) "/case/9/a.txt" "/tmp/9/a.txt"
    (Attr "a.txt" mode_file 5) (set_fs (delete "/tmp/9/a.txt" (fs w)) w).
Proof.
  intros w.
  destruct (transfer_replaces_existing_file (sftp_of case9) "a.txt" "/case/9/a.txt"
              "/tmp/9/a.txt" (Attr "a.txt" mode_file 5) (bytes "old contents")
              "5.00 " w) as (_ & H & _).
  - reflexivity.
  - vm_compute. reflexivity.
  - exact H.
Defined.

(** *** The finally block *)

(** Once the two prompts have been answered, the session binds ssh_client
    and nothing it does afterwards closes the connection. *)
Lemma session_binds_client fuel w username password rest :
  stdin w = Line username :: Line password :: rest ->
  ssh_client_bound (snd (session fuel w)) = true /\
  exists evs, trace (snd (session fuel w)) = trace w ++ evs /\ Forall not_close evs.
Proof.
  intros Hi. destruct w as [i c s f h l b t]. simpl in Hi. subst i.
  unfold session, try_except.
  erewrite bind_ok by (apply input_line; reflexivity).
  erewrite bind_ok by (apply input_line; reflexivity).
  rewrite (bind_ok new_ssh_client _ _ tt _ eq_refl).
  set (w3 := set_bound true _).
  destruct (keeps_session_loop username password fuel w3) as ((evs & Ht & Hf) & Hb & _).
  specialize (Hb eq_refl).
  assert (Hpre : forall evs', Forall not_close evs' ->
            Forall not_close ([EvInput prompt_username; EvInput prompt_password]
                              ++ evs ++ evs')).
  { intros evs' H'. repeat constructor; try discriminate.
    apply Forall_app. split; assumption. }
  destruct (session_loop fuel username password w3) as [[[]|e|] w4];
    simpl in Ht, Hb |- *.
  - split; [assumption|]. exists ([EvInput prompt_username; EvInput prompt_password]
                                  ++ evs ++ []).
    split; [|apply Hpre; constructor].
    rewrite Ht, app_nil_r. unfold w3. simpl. now rewrite <- !app_assoc.
  - destruct (isinstance e Exception); simpl.
    + split; [assumption|].
      eexists ([EvInput prompt_username; EvInput prompt_password] ++ evs ++ [_]).
      split; [rewrite Ht; unfold w3; simpl; now rewrite <- !app_assoc|].
      apply Hpre. repeat constructor. discriminate.
    + split; [assumption|]. exists ([EvInput prompt_username; EvInput prompt_password]
                                     ++ evs ++ []).
      split; [|apply Hpre; constructor].
      rewrite Ht, app_nil_r. unfold w3. simpl. now rewrite <- !app_assoc.
  - split; [assumption|]. exists ([EvInput prompt_username; EvInput prompt_password]
                                  ++ evs ++ []).
    split; [|apply Hpre; constructor].
    rewrite Ht, app_nil_r. unfold w3. simpl. now rewrite <- !app_assoc.
Qed.

(** What holds of C5: when both credentials have been entered, every way
    the script ends - normally, by an interrupt or by an exception - has
    exactly one close of the connection, followed by the last message and
    nothing else. *)
Lemma main_closes_once fuel w username password rest :
  stdin w = Line username :: Line password :: rest ->
  fst (main fuel w) <> Diverge ->
  exists evs,
    trace (snd (main fuel w)) = trace w ++ evs ++ [EvClose; EvPrint (msg_ended +:+ nl)] /\
    Forall not_close evs.
Proof.
  intros Hi. destruct (session_binds_client fuel w username password rest Hi)
    as (Hb & evs & Ht & Hf).
  unfold main, try_finally.
  destruct (session fuel w) as [[[]|e|] w1]; simpl in Hb, Ht |- *;
    try (intros _; unfold ssh_client_close, bind; rewrite Hb; simpl;
         exists evs; split; [rewrite Ht; now rewrite <- !app_assoc|assumption]).
  intros H. now contradiction H.
Qed.

(** ** The loops of the session end *)

Section Total.
Variable n : nat.

Lemma total_ret {A} (a : A) : total_within n (ret a).
Proof. intros w Hl. split; [discriminate|assumption]. Qed.

Lemma total_raise {A} e : total_within n (@raise A e).
Proof. intros w Hl. split; [discriminate|assumption]. Qed.

Lemma total_lift {A} (r : exn + A) : total_within n (lift r).
Proof. destruct r; [apply total_raise|apply total_ret]. Qed.

Lemma total_log e : total_within n (log e).
Proof. intros w Hl. split; [discriminate|assumption]. Qed.

Lemma total_bind {A B} (m : M A) (k : A -> M B) :
  total_within n m -> (forall a, total_within n (k a)) -> total_within n (bind m k).
Proof.
  intros Hm Hk w Hl. unfold bind. destruct (Hm w Hl) as [Hd Hl'].
  destruct (m w) as [[a|e|] w']; simpl in *.
  - now apply Hk.
  - split; [discriminate|assumption].
  - now contradiction Hd.
Qed.

Lemma total_handle {A} (clauses : list (exn_class * (exn -> M A))) e :
  Forall (fun ch => forall e', total_within n (snd ch e')) clauses ->
  total_within n (handle clauses e).
Proof.
  induction 1 as [|[c h] l Hh _ IH]; simpl; [apply total_raise|].
  destruct (isinstance e c); [apply Hh|apply IH].
Qed.

Lemma total_try_except {A} (m : M A) clauses :
  total_within n m ->
  Forall (fun ch => forall e', total_within n (snd ch e')) clauses ->
  total_within n (try_except m clauses).
Proof.
  intros Hm Hc w Hl. unfold try_except. destruct (Hm w Hl) as [Hd Hl'].
  destruct (m w) as [[a|e|] w']; simpl in *.
  - split; [discriminate|assumption].
  - now apply total_handle.
  - now contradiction Hd.
Qed.

Lemma total_try_finally {A} (m : M A) f :
  total_within n m -> total_within n f -> total_within n (try_finally m f).
Proof.
  intros Hm Hf w Hl. unfold try_finally. destruct (Hm w Hl) as [Hd Hl'].
  destruct (m w) as [[a|e|] w']; simpl in *; try (now contradiction Hd);
    destruct (Hf w' Hl') as [Hd' Hl'']; destruct (f w') as [[[]|e'|] w''];
    simpl in *; try (now contradiction Hd'); split; (discriminate || assumption).
Qed.

Lemma total_for_each {A} (l : list A) body :
  (forall x, total_within n (body x)) -> total_within n (for_each l body).
Proof.
  intros Hb. induction l as [|x l IH]; simpl; [apply total_ret|].
  apply total_bind; [apply Hb|]. intros _. apply IH.
Qed.

(** A step that never needs fuel and gives no input back. *)
Lemma total_quiet {A} (m : M A) :
  (forall w, fst (m w) <> Diverge /\ (length (stdin (snd (m w))) <= length (stdin w))%nat) ->
  total_within n m.
Proof. intros H w Hl. destruct (H w). split; [assumption|lia]. Qed.

Lemma total_print text : total_within n (print text).
Proof. apply total_log. Qed.

Lemma total_print_end text e : total_within n (print_end text e).
Proof. apply total_log. Qed.

Lemma total_ssh_connect host p u pw : total_within n (ssh_connect host p u pw).
Proof.
  apply total_bind; [apply total_log|]. intros _. apply total_quiet. intros w.
  destruct (connects w) as [|[e|] rest]; simpl; split; (discriminate || lia).
Qed.

Lemma total_open_sftp : total_within n open_sftp.
Proof.
  apply total_bind; [apply total_log|]. intros _. apply total_quiet. intros w.
  destruct (sftps w) as [|[e|c] rest]; simpl; split; (discriminate || lia).
Qed.

Lemma total_with_sftp {A} (body : SFTPClient -> M A) :
  (forall sftp, total_within n (body sftp)) -> total_within n (with_sftp body).
Proof.
  intros Hb. apply total_bind; [apply total_open_sftp|]. intros sftp.
  apply total_try_finally; [apply Hb|apply total_log].
Qed.

Lemma total_listdir_attr sftp path : total_within n (listdir_attr sftp path).
Proof. apply total_bind; [apply total_log|]. intros _. apply total_lift. Qed.

Lemma total_listdir sftp path : total_within n (listdir sftp path).
Proof. apply total_bind; [apply total_log|]. intros _. apply total_lift. Qed.

Lemma total_stat sftp path : total_within n (stat sftp path).
Proof. apply total_bind; [apply total_log|]. intros _. apply total_lift. Qed.

Lemma total_os_makedirs path exist_ok : total_within n (os_makedirs path exist_ok).
Proof.
  apply total_bind; [apply total_log|]. intros _. apply total_quiet. intros w.
  destruct (fs w !! path) as [[|c]|]; [destruct exist_ok|..]; simpl;
    split; (discriminate || lia).
Qed.

Lemma total_py_open path mode : total_within n (py_open path mode).
Proof.
  apply total_bind; [apply total_log|]. intros _. apply total_quiet. intros w.
  destruct (decide (mode = "wb")); [|destruct (decide (mode = "xb"))];
    destruct (fs w !! path) as [[|c]|]; simpl; split; (discriminate || lia).
Qed.

Lemma total_with_open {A} path mode (body : string -> M A) :
  (forall f, total_within n (body f)) -> total_within n (with_open path mode body).
Proof.
  intros Hb. apply total_bind; [apply total_py_open|]. intros f.
  apply total_try_finally; [apply Hb|apply total_log].
Qed.

Lemma total_file_write f data : total_within n (file_write f data).
Proof.
  apply total_quiet. intros w. unfold file_write.
  destruct (fs w !! f) as [[|c]|]; simpl; split; (discriminate || lia).
Qed.

Lemma total_print_progress x y z : total_within n (print_progress x y z).
Proof.
  unfold print_progress. destruct (decide (z = 0)); [apply total_raise|].
  apply total_bind; [apply total_lift|]. intros a.
  apply total_bind; [apply total_lift|]. intros b. apply total_print_end.
Qed.

Lemma total_transfer chunks : forall f size file_size callback,
  (forall x y, total_within n (callback x y)) ->
  total_within n (transfer chunks f size file_size callback).
Proof.
  induction chunks as [|data chunks IH]; intros f size file_size callback Hc; simpl.
  - apply total_bind; [apply total_file_write|]. intros _. apply total_ret.
  - apply total_bind; [apply total_file_write|]. intros _.
    destruct (decide (data = [])); [apply total_ret|].
    apply total_bind; [apply Hc|]. intros _. now apply IH.
Qed.

Lemma total_getfo sftp remote_path f z :
  total_within n (getfo sftp remote_path f (fun x y => print_progress x y z)).
Proof.
  apply total_bind; [apply total_log|]. intros _.
  apply total_bind; [apply total_lift|]. intros a.
  apply total_bind; [apply total_lift|]. intros chunks.
  apply total_transfer. intros x y. apply total_print_progress.
Qed.

(** The walk needs no fuel: too deep a tree raises RecursionError. *)
Lemma total_download_directory sftp depth : forall remote_dir local_dir,
  total_within n (download_directory depth sftp remote_dir local_dir).
Proof.
  induction depth as [|depth IH]; intros remote_dir local_dir; simpl.
  - apply total_raise.
  - apply total_bind; [apply total_listdir_attr|]. intros items.
    apply total_for_each. intros item. unfold download_item.
    destruct (should_exclude (filename item)); simpl; [apply total_ret|].
    destruct (mode_bit (st_mode item)).
    + apply total_bind; [apply total_os_makedirs|]. intros _. apply IH.
    + unfold download_file.
      apply total_bind; [apply total_lift|]. intros shown.
      apply total_bind; [apply total_print|]. intros _.
      apply total_bind; [|intros _; apply total_print].
      apply total_with_open. intros f. apply total_getfo.
Qed.

Lemma total_download_single sftp filename remote_file_path local_file_path :
  total_within n (download_single sftp filename remote_file_path local_file_path).
Proof.
  unfold download_single.
  apply total_bind; [|intros _; apply total_print].
  apply total_with_open. intros f.
  apply total_bind; [apply total_stat|]. intros a. apply total_getfo.
Qed.

Lemma total_connect_step username password :
  total_within n (connect_step username password).
Proof.
  unfold connect_step. apply total_try_except.
  - apply total_bind; [apply total_ssh_connect|]. intros _.
    apply total_bind; [apply total_print|]. intros _. apply total_ret.
  - each_clause; (apply total_bind; [apply total_print|]); intros _; apply total_ret.
Qed.

End Total.

(** Reading a line leaves one line less for what follows. *)
Lemma total_input {A} n prompt (k : string -> M A) :
  (forall s n', n = S n' -> total_within n' (k s)) ->
  total_within n (bind (input prompt) k).
Proof.
  intros Hk w Hl.
  destruct (stdin w) as [|[s|] rest] eqn:E; simpl in Hl.
  - rewrite (bind_raise _ _ _ _ _ (input_eof prompt w E)).
    split; [discriminate|simpl; rewrite E; simpl; lia].
  - rewrite (bind_ok _ _ _ _ _ (input_line prompt s rest w E)).
    destruct n as [|n']; [lia|].
    destruct (Hk s n' eq_refl (emit [EvInput prompt] (set_stdin rest w)))
      as [Hd Hl']; [simpl; lia|].
    split; [assumption|lia].
  - rewrite (bind_raise _ _ _ _ _ (input_interrupt prompt rest w E)).
    split; [discriminate|simpl; lia].
Qed.

Lemma total_ask_filename sftp remote_directory local_case_directory fuel :
  forall n, (n < fuel)%nat ->
  total_within n (ask_filename fuel sftp remote_directory local_case_directory).
Proof.
  induction fuel as [|fuel IH]; intros n Hn; [lia|]. simpl.
  apply total_input. intros filename n' ->.
  apply total_bind.
  - apply total_try_except.
    + apply total_bind; [apply total_stat|]. intros _. apply total_ret.
    + each_clause. apply total_bind; [apply total_print|]. intros _. apply total_ret.
  - intros [|]; [apply total_ret|apply IH; lia].
Qed.

Lemma total_choose_and_download fuel sftp remote_directory local_case_directory n :
  (n <= fuel)%nat ->
  total_within n (choose_and_download fuel sftp remote_directory local_case_directory).
Proof.
  intros Hn. unfold choose_and_download.
  apply total_input. intros answer n' ->.
  apply total_bind; [|intros _; apply total_print].
  destruct (decide (lower answer = "yes")); [|destruct (decide (lower answer = "no"))].
  - intros w Hl. now apply total_download_directory.
  - apply total_bind; [apply total_ask_filename; lia|]. intros [[a b] c].
    apply total_download_single.
  - apply total_print.
Qed.

Lemma total_case_body fuel case_number local_parent_directory sftp n :
  (n <= fuel)%nat ->
  total_within n (case_body fuel case_number local_parent_directory sftp).
Proof.
  intros Hn. unfold case_body. apply total_bind.
  - apply total_try_except.
    + apply total_bind; [apply total_listdir|]. intros _. apply total_ret.
    + each_clause. apply total_bind; [apply total_print|]. intros _. apply total_ret.
  - intros [|]; simpl; [|apply total_ret].
    apply total_bind; [intros w Hl; split; [discriminate|assumption]|]. intros parent.
    apply total_bind; [intros w Hl; split; [discriminate|assumption]|]. intros present.
    apply total_bind.
    { destruct present; simpl; [apply total_ret|apply total_os_makedirs]. }
    intros _. apply total_bind; [apply total_listdir|]. intros contents.
    apply total_bind; [apply total_print|]. intros _.
    apply total_bind; [apply total_print|]. intros _.
    apply total_bind; [apply total_for_each; intros item; apply total_print|].
    intros _. apply total_bind; [apply total_print|]. intros _.
    apply total_bind; [now apply total_choose_and_download|]. intros _.
    apply total_ret.
Qed.

Lemma total_case_step fuel n : (n <= fuel)%nat -> total_within n (case_step fuel).
Proof.
  intros Hn. unfold case_step. apply total_try_except.
  - apply total_input. intros case_number n' ->.
    apply total_input. intros parent n'' ->.
    apply total_with_sftp. intros sftp. apply total_case_body. lia.
  - each_clause. apply total_bind; [apply total_print|]. intros _. apply total_ret.
Qed.

(** A pass that goes on to the next one has read at least one line. *)
Lemma case_step_consumes fuel w w' :
  case_step fuel w = (Ok Next, w') -> (length (stdin w') < length (stdin w))%nat.
Proof.
  unfold case_step, try_except.
  destruct (stdin w) as [|[case_number|] rest] eqn:E.
  - rewrite (bind_raise _ _ _ _ _ (input_eof prompt_case w E)). simpl. discriminate.
  - rewrite (bind_ok _ _ _ _ _ (input_line prompt_case case_number rest w E)).
    set (w1 := emit _ _).
    set (k := bind (input prompt_parent) _).
    assert (Hk : keeps not_close k).
    { apply keeps_bind; [apply keeps_input; other_event|]. intros parent.
      apply keeps_with_sftp; try other_event. intros sftp. apply keeps_case_body. }
    destruct (Hk w1) as (_ & _ & Hl).
    change (length (stdin (snd (k w1))) <= length rest)%nat in Hl.
    destruct (k w1) as [[g|e|] w2]; simpl in Hl.
    + intros Heq. injection Heq as _ <-. simpl. lia.
    + simpl. destruct (isinstance e KeyboardInterrupt); simpl; discriminate.
    + discriminate.
  - rewrite (bind_raise _ _ _ _ _ (input_interrupt prompt_case rest w E)).
    simpl. discriminate.
Qed.

Lemma total_session_loop username password fuel :
  forall n, (n < fuel)%nat -> total_within n (session_loop fuel username password).
Proof.
  induction fuel as [|fuel IH]; intros n Hn w Hl; [lia|]. simpl. unfold bind.
  destruct (total_connect_step n username password w Hl) as [Hd1 Hl1].
  destruct (connect_step username password w) as [[[|]|e|] w1]; simpl in Hd1, Hl1.
  - destruct (total_case_step fuel n ltac:(lia) w1 Hl1) as [Hd2 Hl2].
    pose proof (case_step_consumes fuel w1) as Hc.
    destruct (case_step fuel w1) as [[[|]|e|] w2]; simpl in Hd2, Hl2.
    + specialize (Hc w2 eq_refl).
      destruct (IH (length (stdin w2)) ltac:(lia) w2 (Nat.le_refl _)) as [Hd3 Hl3].
      split; [assumption|lia].
    + split; [discriminate|assumption].
    + split; [discriminate|assumption].
    + now contradiction Hd2.
  - split; [discriminate|assumption].
  - split; [discriminate|assumption].
  - now contradiction Hd1.
Qed.

(** The model of the script is total: with the fuel that [run] gives it,
    the session always ends, normally or with an exception. *)
Lemma run_total w : fst (run w) <> Diverge.
Proof.
  unfold run, main. set (fuel := S (length (stdin w))).
  assert (Hs : total_within (length (stdin w)) (session fuel)).
  { unfold session. apply total_try_except.
    - apply total_input. intros username n' E.
      apply total_input. intros password n'' ->.
      apply total_bind; [intros w0 Hl; split; [discriminate|assumption]|].
      intros _. apply total_session_loop. unfold fuel. lia.
    - each_clause. apply total_print. }
  assert (Hf : total_within (length (stdin w)) (ssh_client_close;;; print msg_ended)).
  { apply total_bind; [|intros _; apply total_print].
    intros w0 Hl. unfold ssh_client_close.
    destruct (ssh_client_bound w0); split; (discriminate || assumption). }
  apply (total_try_finally _ _ _ Hs Hf w (Nat.le_refl _)).
Qed.

(** So every run in which both credentials are entered closes the
    connection exactly once and ends with the last message. *)
Lemma run_closes_once w username password rest :
  stdin w = Line username :: Line password :: rest ->
  exists evs,
    trace (snd (run w)) = trace w ++ evs ++ [EvClose; EvPrint (msg_ended +:+ nl)] /\
    Forall not_close evs.
Proof.
  intros Hi. apply (main_closes_once _ w username password rest Hi).
  apply run_total.
Qed.

(** * Further properties *)

(** ** format_size within the table *)

Lemma scaled_small (size : Q) : (size <= 1024)%Q -> scaled size = (size, O).
Proof.
  intros H. unfold scaled. destruct (loop_bound size); simpl; [reflexivity|].
  destruct (Qlt_le_dec power size) as [Hgt|_]; [|reflexivity].
  rewrite power_1024 in Hgt. lra.
Qed.

Lemma unit_index_within (size : Q) : (size <= pow1024 4)%Q -> (unit_index size <= 3)%nat.
Proof.
  intros H. replace 3%nat with (unit_index (pow1024 4)).
  - now apply unit_index_mono.
  - apply unit_index_rounds; [right|].
    + rewrite (pow1024_S 3). pose proof (pow1024_ge1 3). lra.
    + apply Qle_refl.
Qed.

Lemma format_size_returns (size : Q) :
  (exists text, format_size size = inr text) <-> (size <= pow1024 4)%Q.
Proof.
  split.
  - intros [text Ht].
    destruct (Qlt_le_dec (pow1024 4) size) as [Hgt|Hle]; [exfalso|assumption].
    pose proof (unit_index_beyond size Hgt) as H4.
    revert Ht. unfold format_size, unit_index in *.
    destruct (scaled size) as [v n]. simpl in H4.
    rewrite power_labels_lookup.
    do 4 (destruct n as [|n]; [lia|]). discriminate.
  - intros Hle. pose proof (unit_index_within size Hle) as H3.
    unfold format_size, unit_index in *.
    destruct (scaled size) as [v n]. simpl in H3.
    rewrite power_labels_lookup.
    do 4 (destruct n as [|n]; [eauto|]). lia.
Qed.

(** format_size gives a text exactly for the sizes up to 1024^4: there it
    never raises, above it always does. The index of the unit is then at
    most 3, and the text is the scaled value, a blank and the label of
    that index. *)
Theorem format_size_returns_iff (size : Q) :
  ((exists text, format_size size = inr text) <-> (size <= pow1024 4)%Q) /\
  ((size <= pow1024 4)%Q ->
   (unit_index size <= 3)%nat /\
   exists label,
     power_labels !! unit_index size = Some label /\
     format_size size = inr (format_2f (fst (scaled size)) +:+ " " +:+ label)).
Proof.
  split; [apply format_size_returns|].
  intros Hle. pose proof (unit_index_within size Hle) as H3. split; [assumption|].
  unfold format_size, unit_index in *. destruct (scaled size) as [v n]. simpl in *.
  rewrite power_labels_lookup.
  do 4 (destruct n as [|n]; [eauto|]). lia.
Qed.

Lemma string_app_assoc (a b c : string) : (a +:+ b) +:+ c = a +:+ (b +:+ c).
Proof.
  induction a as [|x a IH]; [reflexivity|].
  change (String x ((a +:+ b) +:+ c) = String x (a +:+ (b +:+ c))).
  now rewrite IH.
Qed.

Lemma format_2f_integer (B : Z) : 0 <= B -> format_2f (inject_Z B) = pretty B +:+ ".00".
Proof.
  intros HB. unfold format_2f.
  assert (Hc : round_half_even (Qabs (inject_Z B) * 100) = B * 100).
  { unfold round_half_even, inject_Z, Qabs, Qmult, Qfloor, Qminus, Qplus, Qopp,
      Qcompare. simpl.
    rewrite Z.abs_eq by assumption. rewrite Z.div_1_r.
    match goal with
    | |- context [?a ?= ?b] =>
        replace (a ?= b) with Lt by (symmetry; apply Z.compare_lt_iff; lia)
    end.
    reflexivity. }
  rewrite Hc.
  replace (inject_Z B ?= 0)%Q with (B ?= 0).
  2:{ unfold Qcompare, inject_Z. simpl. now rewrite Z.mul_1_r. }
  rewrite Z.div_mul by lia. rewrite Z.mod_mul by lia.
  destruct (Z.compare_spec B 0); try reflexivity. lia.
Qed.

(** Up to 1024 bytes nothing is divided and index 0 has the empty label:
    the text is the byte count with two zero decimals and a trailing
    blank, without a unit. *)
Theorem format_size_bytes (B : Z) :
  0 <= B <= 1024 -> format_size (inject_Z B) = inr (pretty B +:+ ".00 ").
Proof.
  intros HB. unfold format_size.
  rewrite scaled_small by (change 1024%Q with (inject_Z 1024); rewrite <- Zle_Qle; lia).
  rewrite power_labels_lookup, format_2f_integer by lia.
  now rewrite string_app_assoc.
Qed.

Lemma format_size_bytes_witness : format_size (inject_Z 500) = inr "500.00 ".
Proof.
  apply (format_size_bytes 500). lia.
Defined.

Lemma format_size_raises (size : Q) :
  (pow1024 4 < size)%Q ->
  format_size size = inl (Exn KeyError (pretty (unit_index size))).
Proof.
  intros Hgt. pose proof (unit_index_beyond size Hgt) as H4.
  unfold format_size, unit_index in *.
  destruct (scaled size) as [v n]. simpl in *.
  rewrite power_labels_lookup.
  do 4 (destruct n as [|n]; [lia|]). reflexivity.
Qed.

(** ** When the progress report fails *)

(** print_progress ends normally exactly when the remote size is not zero
    and neither the bytes transferred nor the remote size exceed 1024^4. It
    prints one line then; when it raises it prints nothing. Its second
    argument plays no part. *)
Theorem print_progress_ok_iff (transferred total remotefile_size : Z) (w : world) :
  (fst (print_progress transferred total remotefile_size w) = Ok tt <->
   remotefile_size <> 0 /\
   (inject_Z transferred <= pow1024 4)%Q /\
   (inject_Z remotefile_size <= pow1024 4)%Q) /\
  (fst (print_progress transferred total remotefile_size w) <> Ok tt ->
   snd (print_progress transferred total remotefile_size w) = w) /\
  (fst (print_progress transferred total remotefile_size w) = Ok tt ->
   exists text,
     snd (print_progress transferred total remotefile_size w) =
     emit [EvPrint ("Progress: " +:+ text +:+ cr)] w) /\
  (forall total', print_progress transferred total' remotefile_size w =
                  print_progress transferred total remotefile_size w).
Proof.
  unfold print_progress.
  destruct (decide (remotefile_size = 0)) as [Hz|Hz].
  { cbn [raise fst snd].
    split; [split; [discriminate|intros (H & _); contradiction]|].
    split; [reflexivity|]. split; [discriminate|reflexivity]. }
  unfold bind, lift.
  pose proof (format_size_returns (inject_Z transferred)) as Hx.
  pose proof (format_size_returns (inject_Z remotefile_size)) as Hs.
  destruct (format_size (inject_Z transferred)) as [e|a].
  { cbn [raise fst snd].
    split; [split; [discriminate|]|].
    - intros (_ & H & _). apply Hx in H. destruct H. discriminate.
    - split; [reflexivity|]. split; [discriminate|reflexivity]. }
  destruct (format_size (inject_Z remotefile_size)) as [e|b].
  { cbn [raise ret fst snd].
    split; [split; [discriminate|]|].
    - intros (_ & _ & H). apply Hs in H. destruct H. discriminate.
    - split; [reflexivity|]. split; [discriminate|reflexivity]. }
  cbn beta iota delta [ret fst snd print_end log].
  split; [|split; [|split]].
  - split; [intros _|reflexivity].
    split; [assumption|]. split; [apply Hx|apply Hs]; eauto.
  - intros H. now contradiction H.
  - intros _. eexists. rewrite (string_app_assoc "Progress: " _ cr). reflexivity.
  - reflexivity.
Qed.

(** ** Entries the walker cannot transfer *)

(** A file entry of more than 1024^4 bytes (the size of an SFTP attribute
    is below 2^64) stops the walk with a KeyError when its size is
    formatted for the first message: nothing is printed, opened or fetched
    for it. Up to 2^53 bytes, where the count of the loop is exact, the
    key of the error is that count. *)
Theorem download_item_oversize recurse sftp remote_dir local_dir item (w : world) :
  should_exclude (filename item) = false ->
  mode_bit (st_mode item) = false ->
  1024 ^ 4 < st_size item < 2 ^ 64 ->
  exists e,
    download_item recurse sftp remote_dir local_dir item w = (Raise e, w) /\
    exn_cls e = KeyError /\
    (st_size item <= 2 ^ 53 ->
     exn_msg e = pretty (unit_index (inject_Z (st_size item)))).
Proof.
  intros He Hm [Hs _].
  assert (HQ : (pow1024 4 < inject_Z (st_size item))%Q)
    by (unfold pow1024; rewrite <- Zlt_Qlt; exact Hs).
  exists (Exn KeyError (pretty (unit_index (inject_Z (st_size item))))).
  split; [|split; reflexivity].
  unfold download_item, download_file. rewrite He, Hm. simpl.
  unfold bind, lift. now rewrite (format_size_raises _ HQ).
Qed.

Lemma download_item_oversize_witness :
  let w := start [] [] [] {["/tmp/7" := LDir]} in
  exists e,
    download_item (download_directory 5 (sftp_of case7)) (sftp_of case7)
      "/case/7" "/tmp/7" (Attr "big.bin" mode_file (2 ^ 41)) w = (Raise e, w) /\
    exn_cls e = KeyError.
Proof.
  intros w.
  destruct (download_item_oversize (download_directory 5 (sftp_of case7)) (sftp_of case7)
              "/case/7" "/tmp/7" (Attr "big.bin" mode_file (2 ^ 41)) w)
    as (e & H1 & H2 & _); [reflexivity|reflexivity|split; reflexivity|].
  exists e. split; assumption.
Defined.

(** ** Transfers that fail *)

Lemma py_open_wb_ok path w :
  fs w !! path <> Some LDir ->
  py_open path "wb" w =
  (Ok path, emit [EvOpen path "wb"] (set_fs (<[path := LFile []]> (fs w)) w)).
Proof.
  intros Hf. destruct (fs w !! path) as [[|old]|] eqn:E.
  - now contradiction Hf.
  - now apply (py_open_wb_file path old).
  - now apply py_open_wb_absent.
Qed.

Lemma getfo_fails sftp remote_path f callback e w :
  sftp_stat sftp remote_path = inl e \/
  (exists a, sftp_stat sftp remote_path = inr a) /\ sftp_read sftp remote_path = inl e ->
  getfo sftp remote_path f callback w = (Raise e, emit [EvGetfo remote_path] w).
Proof.
  intros H. unfold getfo, bind, log, lift.
  destruct H as [H|[[a Ha] H]]; [now rewrite H|]. now rewrite Ha, H.
Qed.

(** Whatever becomes of the transfer, the local file is there afterwards
    and holds what was written to it. *)
Lemma getfo_file sftp remote_path f z old w :
  fs w !! f = Some (LFile old) ->
  exists data,
    fs (snd (getfo sftp remote_path f (fun x y => print_progress x y z) w)) !! f =
    Some (LFile (old ++ data)).
Proof.
  intros Hf. unfold getfo, bind, log, lift. cbn beta iota.
  destruct (sftp_stat sftp remote_path) as [e|a];
    [exists []; simpl; now rewrite app_nil_r|].
  destruct (sftp_read sftp remote_path) as [e|chunks];
    [exists []; simpl; now rewrite app_nil_r|].
  cbn beta iota delta [ret].
  destruct (transfer_content z chunks f 0 (st_size a) (emit [EvGetfo remote_path] w)
              old Hf) as (data & Hd & _).
  now exists data.
Qed.

(** The file is opened, and so emptied, before anything is asked of the
    server. When the server then refuses the file (no such file, a
    directory, no permission), both transfers raise that error and leave an
    empty local file behind: what the path held before is lost, and the
    message that the download is complete is not printed. *)
Theorem failed_transfer_leaves_empty_file sftp name remote_path local_path item
    shown e (w : world) :
  fs w !! local_path <> Some LDir ->
  format_size (inject_Z (st_size item)) = inr shown ->
  sftp_stat sftp remote_path = inl e \/
  (exists a, sftp_stat sftp remote_path = inr a) /\ sftp_read sftp remote_path = inl e ->
  download_file sftp remote_path local_path item w =
    (Raise e,
     emit [EvPrint ((nl +:+ "Downloading " +:+ filename item +:+ " (" +:+ shown +:+ ")...")
                    +:+ nl);
           EvOpen local_path "wb"; EvGetfo remote_path; EvCloseFile local_path]
          (set_fs (<[local_path := LFile []]> (fs w)) w)) /\
  exists evs,
    download_single sftp name remote_path local_path w =
      (Raise e, emit evs (set_fs (<[local_path := LFile []]> (fs w)) w)) /\
    Forall (fun ev => is_print ev = false) evs.
Proof.
  intros Hf Hs He. split.
  - unfold download_file. unfold bind at 1. unfold lift. rewrite Hs.
    cbn beta iota delta [ret]. unfold bind at 1. rewrite print_run.
    unfold bind at 1. unfold with_open.
    erewrite bind_ok by (apply py_open_wb_ok; exact Hf).
    unfold try_finally. rewrite (getfo_fails _ _ _ _ e _ He).
    cbn beta iota delta [log]. f_equal. same_world.
  - unfold download_single. unfold bind at 1. unfold with_open.
    rewrite (bind_ok _ _ _ _ _ (py_open_wb_ok local_path w Hf)).
    unfold try_finally, stat. unfold bind at 1. unfold bind at 1. unfold log, lift.
    destruct He as [He|[[a Ha] He]].
    + rewrite He. cbn beta iota delta [raise].
      exists [EvOpen local_path "wb"; EvStat remote_path; EvCloseFile local_path].
      split; [f_equal; same_world|]. repeat constructor.
    + rewrite Ha. cbn beta iota delta [ret].
      rewrite (getfo_fails _ _ _ _ e _ (or_intror (conj (ex_intro _ a Ha) He))).
      cbn beta iota.
      exists [EvOpen local_path "wb"; EvStat remote_path; EvGetfo remote_path;
              EvCloseFile local_path].
      split; [f_equal; same_world|]. repeat constructor.
Qed.

Lemma failed_transfer_leaves_empty_file_witness :
  let w := start [] [] [] {["/tmp/7/logs" := LFile (bytes "kept so far")]} in
  exists evs,
    download_single (sftp_of case7) "logs" "/case/7/logs" "/tmp/7/logs" w =
    (Raise failure, emit evs (set_fs (<["/tmp/7/logs" := LFile []]> (fs w)) w)) /\
    Forall (fun ev => is_print ev = false) evs.
Proof.
  intros w.
  destruct (failed_transfer_leaves_empty_file (sftp_of case7) "logs" "/case/7/logs"
              "/tmp/7/logs" (Attr "logs" mode_dir 4096) "4.00 KB" failure w)
    as (_ & H).
  - vm_compute. discriminate.
  - vm_compute. reflexivity.
  - right. split; [eexists|]; vm_compute; reflexivity.
  - exact H.
Defined.

Lemma format_size_error (size : Q) e :
  format_size size = inl e -> exn_cls e = KeyError.
Proof.
  unfold format_size. destruct (scaled size) as [v n].
  destruct (power_labels !! n); [discriminate|]. now intros [= <-].
Qed.

(** In single-file mode a file of more than 1024^4 bytes cannot be
    fetched: the first progress report raises KeyError when it formats the
    remote size, the transfer stops there, and the local file is left with
    the first chunk only. *)
Theorem download_single_oversize sftp name remote_path local_path a data chunks
    (w : world) :
  fs w !! local_path <> Some LDir ->
  sftp_stat sftp remote_path = inr a ->
  (pow1024 4 < inject_Z (st_size a))%Q ->
  sftp_read sftp remote_path = inr (data :: chunks) ->
  data <> [] ->
  exists e,
    fst (download_single sftp name remote_path local_path w) = Raise e /\
    exn_cls e = KeyError /\
    fs (snd (download_single sftp name remote_path local_path w)) !! local_path
      = Some (LFile data).
Proof.
  intros Hf Ha Hs Hr Hd.
  assert (Hp : forall x y w0, exists e,
             print_progress x y (st_size a) w0 = (Raise e, w0) /\ exn_cls e = KeyError).
  { intros x y w0. unfold print_progress.
    destruct (decide (st_size a = 0)) as [Hz|_].
    { exfalso. rewrite Hz in Hs. pose proof (pow1024_pos 4).
      change (inject_Z 0) with 0%Q in Hs. lra. }
    unfold bind, lift.
    destruct (format_size (inject_Z x)) as [e|shown] eqn:E.
    - exists e. split; [reflexivity|]. now apply (format_size_error _ _ E).
    - rewrite (format_size_raises _ Hs). eexists. split; reflexivity. }
  enough (H : exists e wf,
             download_single sftp name remote_path local_path w = (Raise e, wf) /\
             exn_cls e = KeyError /\ fs wf !! local_path = Some (LFile data)).
  { destruct H as (e & wf & -> & Hk & Hw). exists e. simpl. auto. }
  unfold download_single. unfold bind at 1. unfold with_open.
  rewrite (bind_ok _ _ _ _ _ (py_open_wb_ok local_path w Hf)).
  set (w1 := emit _ _).
  unfold try_finally, stat. unfold bind at 1. unfold bind at 1. unfold log, lift.
  rewrite Ha. cbn beta iota delta [ret].
  unfold getfo. unfold bind at 1. unfold log. unfold bind at 1. unfold lift.
  rewrite Ha. cbn beta iota delta [ret]. unfold bind at 1. rewrite Hr.
  cbn beta iota delta [ret].
  set (w2 := emit [EvGetfo remote_path] _).
  assert (H2 : fs w2 !! local_path = Some (LFile []))
    by (unfold w2, w1; simpl; apply lookup_insert_eq).
  rewrite (transfer_cons _ _ _ _ _ _ [] w2 H2).
  destruct (decide (data = [])) as [|_]; [contradiction|].
  set (w3 := set_fs _ w2).
  destruct (Hp (0 + Z.of_nat (length data)) (st_size a) w3) as (e & He & Hk).
  unfold bind at 1. rewrite He. cbn beta iota delta [log fst snd].
  exists e. eexists. split; [reflexivity|]. split; [assumption|].
  unfold w3. simpl. apply lookup_insert_eq.
Qed.

Lemma download_single_oversize_witness :
  let big := Attr "big.bin" mode_file (2 ^ 41) in
  let sftp := {| sftp_listdir_attr := fun _ => inr [big];
                 sftp_listdir := fun _ => inr ["big.bin"];
                 sftp_stat := fun _ => inr big;
                 sftp_read := fun _ => inr [bytes "first"; bytes "second"] |} in
  let w := start [] [] [] ∅ in
  exists e,
    fst (download_single sftp "big.bin" "/case/1/big.bin" "/tmp/1/big.bin" w) = Raise e /\
    exn_cls e = KeyError /\
    fs (snd (download_single sftp "big.bin" "/case/1/big.bin" "/tmp/1/big.bin" w))
      !! "/tmp/1/big.bin" = Some (LFile (bytes "first")).
Proof.
  intros big sftp w.
  apply (download_single_oversize sftp "big.bin" "/case/1/big.bin" "/tmp/1/big.bin"
           big (bytes "first") [bytes "second"] w).
  - vm_compute. discriminate.
  - reflexivity.
  - reflexivity.
  - reflexivity.
  - vm_compute. discriminate.
Defined.

(** ** What the walker does with a listing *)

Lemma bind_ret_l {A B} (a : A) (k : A -> M B) w : bind (ret a) k w = k a w.
Proof. reflexivity. Qed.

(** The entries with a sentinel name leave no mark on a walk: the loop over
    a listing does the same as the loop over the listing without them. *)
Theorem walk_ignores_excluded recurse sftp remote_dir local_dir items (w : world) :
  for_each items (download_item recurse sftp remote_dir local_dir) w =
  for_each (List.filter (fun item => negb (should_exclude (filename item))) items)
           (download_item recurse sftp remote_dir local_dir) w.
Proof.
  revert w. induction items as [|item items IH]; intros w; [reflexivity|].
  simpl. destruct (should_exclude (filename item)) eqn:E; simpl.
  - unfold download_item at 1. rewrite E. simpl. rewrite bind_ret_l. apply IH.
  - unfold bind. destruct (download_item _ _ _ _ item w) as [[[]|e|] w']; auto.
Qed.

Lemma for_each_app {A} (l1 l2 : list A) body w w1 :
  for_each l1 body w = (Ok tt, w1) ->
  for_each (l1 ++ l2) body w = for_each l2 body w1.
Proof.
  revert w. induction l1 as [|x l1 IH]; intros w; simpl.
  - now intros [= <-].
  - unfold bind. destruct (body x w) as [[[]|e|] w']; try discriminate. apply IH.
Qed.

(** The walk has no recovery: the first entry that raises ends the walk of
    the directory with that exception, in the state that entry left, and
    the entries listed after it are not looked at. *)
Theorem walk_stops_at_first_failure depth sftp remote_dir local_dir before item after
    e (w w1 w2 : world) :
  sftp_listdir_attr sftp remote_dir = inr (before ++ item :: after) ->
  for_each before (download_item (download_directory depth sftp) sftp remote_dir local_dir)
           (emit [EvListdirAttr remote_dir] w) = (Ok tt, w1) ->
  download_item (download_directory depth sftp) sftp remote_dir local_dir item w1
    = (Raise e, w2) ->
  download_directory (S depth) sftp remote_dir local_dir w = (Raise e, w2).
Proof.
  intros Hl Hb Hi. simpl. unfold listdir_attr, bind at 1, bind at 1, log, lift.
  rewrite Hl. cbn beta iota delta [ret].
  rewrite (for_each_app _ _ _ _ _ Hb). simpl. unfold bind. now rewrite Hi.
Qed.

Lemma walk_stops_at_first_failure_witness :
  let w := start [] [] [] {["/tmp/7" := LDir]} in
  exists w2,
    download_directory 2 (sftp_of case7) "/case/7" "/tmp/7" w = (Raise failure, w2).
Proof.
  intros w. eexists.
  eapply (walk_stops_at_first_failure 1 (sftp_of case7) "/case/7" "/tmp/7"
            [Attr "a.txt" mode_file 5] (Attr "logs" mode_dir 4096) []).
  - vm_compute. reflexivity.
  - vm_compute. reflexivity.
  - vm_compute. reflexivity.
Defined.

(** ** The walk and the rest of the world *)

Section Preserves.
Variable R : world -> world -> Prop.
Hypothesis R_refl : forall w, R w w.
Hypothesis R_trans : forall w1 w2 w3, R w1 w2 -> R w2 w3 -> R w1 w3.
Hypothesis R_emit : forall evs w, R w (emit evs w).

Lemma preserves_ret {A} (a : A) : preserves R (ret a).
Proof. intros w. apply R_refl. Qed.

Lemma preserves_raise {A} e : preserves R (@raise A e).
Proof. intros w. apply R_refl. Qed.

Lemma preserves_lift {A} (r : exn + A) : preserves R (lift r).
Proof. destruct r; [apply preserves_raise|apply preserves_ret]. Qed.

Lemma preserves_log e : preserves R (log e).
Proof. intros w. apply R_emit. Qed.

Lemma preserves_bind {A B} (m : M A) (k : A -> M B) :
  preserves R m -> (forall a, preserves R (k a)) -> preserves R (bind m k).
Proof.
  intros Hm Hk w. unfold bind. specialize (Hm w).
  destruct (m w) as [[a|e|] w']; simpl in *; [|assumption..].
  eapply R_trans; [eassumption|apply Hk].
Qed.

Lemma preserves_try_finally {A} (m : M A) f :
  preserves R m -> preserves R f -> preserves R (try_finally m f).
Proof.
  intros Hm Hf w. unfold try_finally. specialize (Hm w).
  destruct (m w) as [[a|e|] w']; simpl in *; try assumption;
    specialize (Hf w'); destruct (f w') as [[[]|e'|] w'']; simpl in *;
    eapply R_trans; eassumption.
Qed.

Lemma preserves_for_each {A} (l : list A) body :
  (forall x, In x l -> preserves R (body x)) -> preserves R (for_each l body).
Proof.
  induction l as [|x l IH]; intros Hb; simpl; [apply preserves_ret|].
  apply preserves_bind; [apply Hb; now left|].
  intros _. apply IH. intros y Hy. apply Hb. now right.
Qed.

Lemma preserves_print_progress x y z : preserves R (print_progress x y z).
Proof.
  unfold print_progress. destruct (decide (z = 0)); [apply preserves_raise|].
  apply preserves_bind; [apply preserves_lift|]. intros a.
  apply preserves_bind; [apply preserves_lift|]. intros b. apply preserves_log.
Qed.

End Preserves.

Section Confined.
Variable local_dir : string.

Lemma confined_refl w : confined local_dir w w.
Proof. repeat split. Qed.

Lemma confined_trans w1 w2 w3 :
  confined local_dir w1 w2 -> confined local_dir w2 w3 -> confined local_dir w1 w3.
Proof.
  intros (F1 & A1 & B1 & C1 & D1 & E1 & G1) (F2 & A2 & B2 & C2 & D2 & E2 & G2).
  repeat split; try congruence.
  intros path Hp. now rewrite F2, F1.
Qed.

Lemma confined_emit evs w : confined local_dir w (emit evs w).
Proof. repeat split. Qed.

(** A change of the file at a path that starts with [local_dir]. *)
Lemma confined_set_fs path node w :
  startswith local_dir path = true ->
  confined local_dir w (set_fs (<[path := node]> (fs w)) w).
Proof.
  intros Hp. repeat split. intros q Hq. simpl.
  apply lookup_insert_ne. intros ->. congruence.
Qed.

Lemma preserves_os_makedirs path exist_ok :
  startswith local_dir path = true ->
  preserves (confined local_dir) (os_makedirs path exist_ok).
Proof.
  intros Hp. apply preserves_bind;
    [apply confined_trans|apply preserves_log, confined_emit|].
  intros _ w. destruct (fs w !! path) as [[|c]|]; [destruct exist_ok|..]; simpl;
    try apply confined_refl. now apply confined_set_fs.
Qed.

Lemma preserves_py_open path mode :
  startswith local_dir path = true ->
  preserves (confined local_dir) (py_open path mode).
Proof.
  intros Hp. apply preserves_bind;
    [apply confined_trans|apply preserves_log, confined_emit|].
  intros _ w.
  destruct (decide (mode = "wb")); [|destruct (decide (mode = "xb"))];
    destruct (fs w !! path) as [[|c]|]; simpl;
    try apply confined_refl; now apply confined_set_fs.
Qed.

Lemma preserves_file_write f data :
  startswith local_dir f = true ->
  preserves (confined local_dir) (file_write f data).
Proof.
  intros Hp w. unfold file_write.
  destruct (fs w !! f) as [[|c]|]; simpl;
    try apply confined_refl; now apply confined_set_fs.
Qed.

Lemma preserves_transfer z chunks : forall f size file_size,
  startswith local_dir f = true ->
  preserves (confined local_dir)
    (transfer chunks f size file_size (fun x y => print_progress x y z)).
Proof.
  induction chunks as [|data chunks IH]; intros f size file_size Hp; simpl.
  - apply preserves_bind;
      [apply confined_trans|now apply preserves_file_write|].
    intros _. apply preserves_ret, confined_refl.
  - apply preserves_bind;
      [apply confined_trans|now apply preserves_file_write|].
    intros _. destruct (decide (data = []));
      [apply preserves_ret, confined_refl|].
    apply preserves_bind; [apply confined_trans| |intros _; now apply IH].
    apply preserves_print_progress;
      [apply confined_refl|apply confined_trans|apply confined_emit].
Qed.

Lemma preserves_download_file sftp remote_path local_path item :
  startswith local_dir local_path = true ->
  preserves (confined local_dir) (download_file sftp remote_path local_path item).
Proof.
  intros Hp. unfold download_file.
  apply preserves_bind; [apply confined_trans|apply preserves_lift, confined_refl|].
  intros shown.
  apply preserves_bind; [apply confined_trans|apply preserves_log, confined_emit|].
  intros _.
  apply preserves_bind;
    [apply confined_trans| |intros _; apply preserves_log, confined_emit].
  unfold with_open. intros w.
  pose proof (preserves_py_open local_path "wb" Hp w) as Ho.
  unfold bind. destruct (py_open local_path "wb" w) as [[f| |] w1] eqn:E;
    simpl in *; try assumption.
  assert (f = local_path) as ->.
  { revert E. unfold py_open, bind, log. repeat case_match; congruence. }
  eapply confined_trans; [eassumption|].
  apply preserves_try_finally;
    [apply confined_trans| |apply preserves_log, confined_emit].
  unfold getfo.
  apply preserves_bind; [apply confined_trans|apply preserves_log, confined_emit|].
  intros _.
  apply preserves_bind; [apply confined_trans|apply preserves_lift, confined_refl|].
  intros a.
  apply preserves_bind; [apply confined_trans|apply preserves_lift, confined_refl|].
  intros chunks. now apply preserves_transfer.
Qed.

End Confined.

Lemma startswith_nil s : startswith "" s = true.
Proof. now destruct s. Qed.


Lemma path_join_absolute a b : startswith "/" b = true -> path_join a b = b.
Proof. intros H. unfold path_join. now rewrite H. Qed.


Lemma preserves_download_directory local_dir (ok : string -> Prop) sftp :
  (forall path items item,
     sftp_listdir_attr sftp path = inr items -> In item items -> ok (filename item)) ->
  (forall d name, startswith local_dir d = true -> ok name ->
                  startswith local_dir (path_join d name) = true) ->
  forall depth remote_dir d,
    startswith local_dir d = true ->
    preserves (confined local_dir) (download_directory depth sftp remote_dir d).
Proof.
  intros Hok Hjoin. induction depth as [|depth IH]; intros remote_dir d Hd; simpl.
  - apply preserves_raise, confined_refl.
  - intros w. unfold bind at 1. unfold listdir_attr, bind at 1, log, lift.
    destruct (sftp_listdir_attr sftp remote_dir) as [e|items] eqn:E;
      [apply confined_emit|].
    cbn beta iota delta [ret].
    eapply confined_trans; [apply (confined_emit local_dir [EvListdirAttr remote_dir])|].
    apply preserves_for_each; [apply confined_refl|apply confined_trans|].
    intros item Hin. unfold download_item.
    destruct (should_exclude (filename item)); simpl;
      [apply preserves_ret, confined_refl|].
    pose proof (Hjoin d (filename item) Hd (Hok _ _ _ E Hin)) as Hp.
    destruct (mode_bit (st_mode item)).
    + apply preserves_bind;
        [apply confined_trans|now apply preserves_os_makedirs|].
      intros _. now apply IH.
    + now apply preserves_download_file.
Qed.

(** A walk changes local files and the trace and nothing else: it reads no
    input, uses up no connection or SFTP session of the world and leaves
    the name ssh_client as it is. *)
Theorem walk_leaves_session_alone depth sftp remote_dir local_dir (w : world) :
  let w' := snd (download_directory depth sftp remote_dir local_dir w) in
  stdin w' = stdin w /\ connects w' = connects w /\ sftps w' = sftps w /\
  home w' = home w /\ recursion_limit w' = recursion_limit w /\
  ssh_client_bound w' = ssh_client_bound w.
Proof.
  destruct (preserves_download_directory "" (fun _ => True) sftp
              (fun _ _ _ _ _ => I) (fun d name _ _ => startswith_nil (path_join d name))
              depth remote_dir local_dir (startswith_nil local_dir) w) as [_ H].
  exact H.
Qed.





(** ** Names that start with a slash *)

Lemma download_file_creates sftp remote_path local_path item shown w :
  fs w !! local_path <> Some LDir ->
  format_size (inject_Z (st_size item)) = inr shown ->
  exists evs data,
    trace (snd (download_file sftp remote_path local_path item w)) =
      trace w ++ [EvPrint ((nl +:+ "Downloading " +:+ filename item +:+ " (" +:+ shown
                            +:+ ")...") +:+ nl);
                  EvOpen local_path "wb"; EvGetfo remote_path] ++ evs /\
    fs (snd (download_file sftp remote_path local_path item w)) !! local_path
      = Some (LFile data).
Proof.
  intros Hf Hs.
  enough (H : exists wf evs data,
             snd (download_file sftp remote_path local_path item w) = wf /\
             trace wf = trace w ++ [EvPrint ((nl +:+ "Downloading " +:+ filename item +:+
                                               " (" +:+ shown +:+ ")...") +:+ nl);
                                    EvOpen local_path "wb"; EvGetfo remote_path] ++ evs /\
             fs wf !! local_path = Some (LFile data)).
  { destruct H as (wf & evs & data & -> & H1 & H2). eauto. }
  unfold download_file. unfold bind at 1. unfold lift. rewrite Hs.
  cbn beta iota delta [ret]. unfold bind at 1. rewrite print_run.
  unfold bind at 1. unfold with_open.
  erewrite bind_ok by (apply py_open_wb_ok; exact Hf).
  unfold try_finally. cbn beta.
  set (w2 := emit [EvOpen local_path "wb"] _).
  assert (H2 : fs w2 !! local_path = Some (LFile []))
    by (unfold w2; simpl; apply lookup_insert_eq).
  destruct (getfo_file sftp remote_path local_path (st_size item) [] w2 H2)
    as (data & Hdata).
  set (rest := fun w0 : world =>
         (let* a := lift (sftp_stat sftp remote_path) in
          let* chunks := lift (sftp_read sftp remote_path) in
          transfer chunks local_path 0 (st_size a)
            (fun x y => print_progress x y (st_size item))) w0).
  assert (Hk : keeps (fun _ => True) rest).
  { unfold rest. intros w0. revert w0.
    apply keeps_bind; [apply keeps_lift|]. intros a.
    apply keeps_bind; [apply keeps_lift|]. intros chunks.
    apply keeps_transfer. intros x y. now apply keeps_print_progress. }
  change (getfo sftp remote_path local_path
            (fun x y => print_progress x y (st_size item)) w2)
    with (rest (emit [EvGetfo remote_path] w2)) in *.
  destruct (Hk (emit [EvGetfo remote_path] w2)) as ((evs & Ht & _) & _).
  destruct (rest (emit [EvGetfo remote_path] w2)) as [[n|e|] w3]; simpl in Ht, Hdata.
  - cbn beta iota delta [log]. unfold print, print_end, log.
    eexists _, (evs ++ [_; _]), data. split; [reflexivity|]. split; [|exact Hdata].
    simpl. rewrite Ht. unfold w2. simpl. now rewrite <- !app_assoc.
  - cbn beta iota delta [log].
    eexists _, (evs ++ [_]), data. split; [reflexivity|]. split; [|exact Hdata].
    simpl. rewrite Ht. unfold w2. simpl. now rewrite <- !app_assoc.
  - eexists _, evs, data. split; [reflexivity|]. split; [|exact Hdata].
    simpl. rewrite Ht. unfold w2. simpl. now rewrite <- !app_assoc.
Qed.

(** The local directory is no fence: for an entry whose name starts with a
    slash, os.path.join drops both directories, so the walker asks the
    server for that very path and creates the local file at that very
    path, wherever the walk was meant to go. *)
Theorem absolute_name_leaves_local_dir recurse sftp remote_dir local_dir item shown
    (w : world) :
  startswith "/" (filename item) = true ->
  should_exclude (filename item) = false ->
  mode_bit (st_mode item) = false ->
  format_size (inject_Z (st_size item)) = inr shown ->
  fs w !! filename item <> Some LDir ->
  let r := download_item recurse sftp remote_dir local_dir item w in
  In (EvOpen (filename item) "wb") (trace (snd r)) /\
  In (EvGetfo (filename item)) (trace (snd r)) /\
  exists data, fs (snd r) !! filename item = Some (LFile data).
Proof.
  intros Ha He Hm Hs Hf r. unfold r, download_item. rewrite He, Hm. simpl.
  rewrite !(path_join_absolute _ _ Ha).
  destruct (download_file_creates sftp (filename item) (filename item) item shown w
              Hf Hs) as (evs & data & Ht & Hd).
  rewrite Ht. repeat split.
  - apply in_or_app. right. simpl. auto.
  - apply in_or_app. right. simpl. auto.
  - now exists data.
Qed.

Lemma absolute_name_leaves_local_dir_witness :
  let item := Attr "/home/user/.bashrc" mode_file 5 in
  let sftp := {| sftp_listdir_attr := fun _ => inr [item];
                 sftp_listdir := fun _ => inr ["/home/user/.bashrc"];
                 sftp_stat := fun _ => inr item;
                 sftp_read := fun _ => inr [bytes "hello"] |} in
  let w := start [] [] [] {["/tmp/1" := LDir]} in
  let r := download_item (download_directory 5 sftp) sftp "/case/1" "/tmp/1" item w in
  In (EvOpen "/home/user/.bashrc" "wb") (trace (snd r)).
Proof.
  intros item sftp w r.
  destruct (absolute_name_leaves_local_dir (download_directory 5 sftp) sftp
              "/case/1" "/tmp/1" item "5.00 " w) as (H & _); try reflexivity.
  - vm_compute. discriminate.
  - exact H.
Defined.

(** ** How a session ends *)

(** When connect raises, the session is over at once: the script prints
    the message of the first clause that matches (an authentication failure
    gets its own message although it is an SSHException too; any other
    Exception is reported by the outer handler), asks for no case number,
    closes the connection and prints the last message. An exception that
    is no Exception and no interrupt is printed by nobody and leaves the
    script after the close. *)
Theorem connect_failure_ends_session (w : world) username password rest e cs :
  stdin w = Line username :: Line password :: rest ->
  connects w = Some e :: cs ->
  run w =
  (match connect_report e with Some _ => Ok tt | None => Raise e end,
   emit ([EvInput prompt_username; EvInput prompt_password;
          EvConnect hostname port username password]
         ++ match connect_report e with
            | Some text => [EvPrint (text +:+ nl)]
            | None => []
            end
         ++ [EvClose; EvPrint (msg_ended +:+ nl)])
        (set_bound true (set_connects cs (set_stdin rest w)))).
Proof.
  intros Hi Hc. destruct w as [i c s f h l b t]. simpl in Hi, Hc. subst i c.
  unfold run, main, session, connect_report.
  cbn [stdin length session_loop].
  unfold try_finally, try_except at 1.
  erewrite bind_ok by (apply input_line; reflexivity).
  erewrite bind_ok by (apply input_line; reflexivity).
  rewrite (bind_ok new_ssh_client _ _ tt _ eq_refl).
  unfold connect_step, try_except, ssh_connect, ssh_client_close.
  run_steps.
  destruct (isinstance e AuthenticationException); run_steps;
    [f_equal; same_world|].
  destruct (isinstance e SSHException); run_steps; [f_equal; same_world|].
  destruct (isinstance e KeyboardInterrupt); run_steps; [f_equal; same_world|].
  destruct (isinstance e Exception); run_steps; f_equal; same_world.
Qed.

Lemma connect_failure_ends_session_witness :
  let w := start [Line "alice"; Line "wrong"; Line "7"]
                 [Some (Exn AuthenticationException "Authentication failed.")]
                 [inr (sftp_of case7)] ∅ in
  fst (run w) = Ok tt /\
  trace (snd (run w)) =
    [EvInput prompt_username; EvInput prompt_password;
     EvConnect hostname port "alice" "wrong"; EvPrint (msg_auth_failed +:+ nl);
     EvClose; EvPrint (msg_ended +:+ nl)].
Proof.
  intros w.
  rewrite (connect_failure_ends_session w "alice" "wrong" [Line "7"]
             (Exn AuthenticationException "Authentication failed.") []
             eq_refl eq_refl).
  split; reflexivity.
Defined.

(** *** Interrupts inside the loop *)

Lemma connect_step_no_interrupt username password w e w' :
  connect_step username password w = (Raise e, w') ->
  isinstance e KeyboardInterrupt = false.
Proof.
  unfold connect_step, try_except.
  match goal with |- context [bind ?m ?k w] => destruct (bind m k w) as [[a|e0|] w1] end;
    try discriminate.
  cbn [handle].
  destruct (isinstance e0 AuthenticationException); [discriminate|].
  destruct (isinstance e0 SSHException); [discriminate|].
  destruct (isinstance e0 KeyboardInterrupt) eqn:E; [discriminate|].
  now intros [= <- _].
Qed.

Lemma case_step_no_interrupt fuel w e w' :
  case_step fuel w = (Raise e, w') -> isinstance e KeyboardInterrupt = false.
Proof.
  unfold case_step, try_except.
  match goal with |- context [bind ?m ?k w] => destruct (bind m k w) as [[a|e0|] w1] end;
    try discriminate.
  cbn [handle].
  destruct (isinstance e0 KeyboardInterrupt) eqn:E; [discriminate|].
  now intros [= <- _].
Qed.

Lemma session_loop_no_interrupt username password fuel : forall w e w',
  session_loop fuel username password w = (Raise e, w') ->
  isinstance e KeyboardInterrupt = false.
Proof.
  induction fuel as [|fuel IH]; intros w e w'; simpl; [discriminate|].
  unfold bind at 1.
  destruct (connect_step username password w) as [[[|]|e1|] w1] eqn:E1;
    try discriminate.
  - unfold bind.
    destruct (case_step fuel w1) as [[[|]|e2|] w2] eqn:E2; try discriminate.
    + apply IH.
    + intros [= <- _]. exact (case_step_no_interrupt _ _ _ _ E2).
  - intros [= <- _]. exact (connect_step_no_interrupt _ _ _ _ _ E1).
Qed.

Lemma only_base_exception e :
  isinstance e KeyboardInterrupt = false -> isinstance e Exception = false ->
  exn_cls e = BaseException.
Proof. destruct e as [[] msg]; vm_compute; congruence. Qed.

(** Once both credentials are entered, Ctrl-C never ends the script with
    an exception: wherever the interrupt arrives in the loop it is caught
    and answered with the abort message. The only exception that can leave
    the script then is one that is neither an Exception nor an interrupt. *)
Theorem interrupts_are_caught_in_the_loop (w : world) username password rest e :
  stdin w = Line username :: Line password :: rest ->
  fst (run w) = Raise e ->
  exn_cls e = BaseException.
Proof.
  intros Hi. pose proof (session_binds_client (S (length (stdin w))) w _ _ _ Hi)
    as (Hb & _).
  unfold run, main, try_finally.
  destruct (session (S (length (stdin w))) w) as [[[]|e1|] w1] eqn:Es;
    simpl in Hb; try discriminate;
    unfold bind, ssh_client_close; rewrite Hb; simpl; try discriminate.
  intros [= <-]. revert Es. unfold session, try_except.
  destruct w as [i c s f h l b t]. simpl in Hi. subst i.
  erewrite bind_ok by (apply input_line; reflexivity).
  erewrite bind_ok by (apply input_line; reflexivity).
  rewrite (bind_ok new_ssh_client _ _ tt _ eq_refl).
  match goal with
  | |- context [session_loop ?n ?u ?p ?w0] =>
      destruct (session_loop n u p w0) as [[[]|e2|] w2] eqn:El
  end; try discriminate.
  cbn [handle]. destruct (isinstance e2 Exception) eqn:Ex; [discriminate|].
  intros [= <- _]. apply only_base_exception; [|assumption].
  exact (session_loop_no_interrupt _ _ _ _ _ _ El).
Qed.

Lemma interrupts_are_caught_in_the_loop_witness :
  let w := start [Line "alice"; Line "secret"; Line "7"]
                 [Some (Exn BaseException "exit")] [] ∅ in
  fst (run w) = Raise (Exn BaseException "exit") /\
  exn_cls (Exn BaseException "exit") = BaseException.
Proof.
  intros w. split; [vm_compute; reflexivity|].
  apply (interrupts_are_caught_in_the_loop w "alice" "secret" [Line "7"]).
  - reflexivity.
  - vm_compute. reflexivity.
Defined.

(** *** No way out of the loop but a failure or an interrupt *)

Lemma returns_only_ret {A} (P : A -> Prop) a : P a -> returns_only P (ret a).
Proof. intros H w b w' [= <- _]. exact H. Qed.

Lemma returns_only_bind {A B} (P : B -> Prop) (m : M A) (k : A -> M B) :
  (forall a, returns_only P (k a)) -> returns_only P (bind m k).
Proof.
  intros Hk w b w'. unfold bind. destruct (m w) as [[a|e|] w1]; try discriminate.
  apply Hk.
Qed.

Lemma returns_only_try_finally {A} (P : A -> Prop) (m : M A) f :
  returns_only P m -> returns_only P (try_finally m f).
Proof.
  intros Hm w b w'. unfold try_finally. specialize (Hm w).
  destruct (m w) as [[a|e|] w1]; try discriminate;
    destruct (f w1) as [[[]|e'|] w2]; try discriminate.
  intros [= <- _]. now apply (Hm a w1).
Qed.

(** The with block of a pass never asks for a [break]. *)
Lemma case_body_next fuel case_number parent sftp :
  returns_only (eq Next) (case_body fuel case_number parent sftp).
Proof.
  unfold case_body. apply returns_only_bind. intros [|]; simpl;
    [|now apply returns_only_ret].
  repeat (apply returns_only_bind; intros ?).
  now apply returns_only_ret.
Qed.

Lemma connect_step_break username password w w' :
  connect_step username password w = (Ok Break, w') ->
  exists text,
    trace w' = trace w ++ [EvConnect hostname port username password;
                           EvPrint (text +:+ nl)] /\
    (text = msg_auth_failed \/ text = msg_ssh_failed \/ text = msg_aborted).
Proof.
  destruct w as [i c s f h l b t].
  unfold connect_step, try_except, ssh_connect. run_steps.
  destruct c as [|[e|] cs]; run_steps; try discriminate.
  - change (isinstance (Exn SSHException "No existing session") AuthenticationException)
      with false.
    change (isinstance (Exn SSHException "No existing session") SSHException) with true.
    run_steps. intros [= <-]. exists msg_ssh_failed. simpl.
    rewrite <- app_assoc. auto.
  - destruct (isinstance e AuthenticationException); run_steps.
    { intros [= <-]. exists msg_auth_failed. simpl. rewrite <- app_assoc. auto. }
    destruct (isinstance e SSHException); run_steps.
    { intros [= <-]. exists msg_ssh_failed. simpl. rewrite <- app_assoc. auto. }
    destruct (isinstance e KeyboardInterrupt); run_steps; [|discriminate].
    intros [= <-]. exists msg_aborted. simpl. rewrite <- app_assoc. auto.
Qed.

Lemma case_step_break fuel w w' :
  case_step fuel w = (Ok Break, w') ->
  exists evs, trace w' = trace w ++ evs ++ [EvPrint (msg_aborted +:+ nl)].
Proof.
  unfold case_step, try_except.
  set (body := bind (input prompt_case) _).
  assert (Hk : keeps not_close body).
  { apply keeps_bind; [apply keeps_input; other_event|]. intros case_number.
    apply keeps_bind; [apply keeps_input; other_event|]. intros parent.
    apply keeps_with_sftp; try other_event. intros sftp. apply keeps_case_body. }
  assert (Hn : returns_only (eq Next) body).
  { repeat (apply returns_only_bind; intros ?).
    apply returns_only_try_finally, case_body_next. }
  destruct (Hk w) as ((evs & Ht & _) & _). specialize (Hn w).
  destruct (body w) as [[g|e|] w1]; simpl in Ht.
  - intros [= -> _]. now specialize (Hn Break w1 eq_refl).
  - cbn [handle]. destruct (isinstance e KeyboardInterrupt); [|discriminate].
    intros [= <-]. exists evs. simpl. now rewrite Ht, <- app_assoc.
  - discriminate.
Qed.

Lemma session_loop_break username password fuel : forall w w',
  session_loop fuel username password w = (Ok tt, w') ->
  exists evs text,
    trace w' = trace w ++ evs ++ [EvPrint (text +:+ nl)] /\
    (text = msg_auth_failed \/ text = msg_ssh_failed \/ text = msg_aborted).
Proof.
  induction fuel as [|fuel IH]; intros w w'; simpl; [discriminate|].
  unfold bind at 1.
  pose proof (keeps_connect_step username password w) as ((ev1 & Ht1 & _) & _).
  destruct (connect_step username password w) as [[[|]|e1|] w1] eqn:E1;
    try discriminate; simpl in Ht1.
  - unfold bind.
    pose proof (keeps_case_step fuel w1) as ((ev2 & Ht2 & _) & _).
    destruct (case_step fuel w1) as [[[|]|e2|] w2] eqn:E2; try discriminate;
      simpl in Ht2.
    + intros H. destruct (IH _ _ H) as (evs & text & Ht & Hm).
      exists (ev1 ++ ev2 ++ evs), text. split; [|assumption].
      rewrite Ht, Ht2, Ht1. now rewrite <- !app_assoc.
    + intros [= <-]. destruct (case_step_break _ _ _ E2) as (evs & Ht).
      exists (ev1 ++ evs), msg_aborted. split; [|auto].
      rewrite Ht, Ht1. now rewrite <- !app_assoc.
  - intros [= <-]. destruct (connect_step_break _ _ _ _ E1) as (text & Ht & Hm).
    exists [EvConnect hostname port username password], text. split; assumption.
Qed.

(** The script has no ordinary way to finish. When a session in which
    both credentials were entered ends without an exception, the last
    thing printed before the connection is closed is a failure report: the
    authentication or connection failure, the abort message of an
    interrupt, or the error of the outer handler. A download that is
    complete is always followed by another pass of the loop. *)
Theorem session_ends_after_a_report (w : world) username password rest :
  stdin w = Line username :: Line password :: rest ->
  fst (run w) = Ok tt ->
  exists evs text,
    trace (snd (run w)) =
      trace w ++ evs ++ [EvPrint (text +:+ nl); EvClose; EvPrint (msg_ended +:+ nl)] /\
    (text = msg_auth_failed \/ text = msg_ssh_failed \/ text = msg_aborted \/
     exists e, text = "An error occurred: " +:+ exn_msg e).
Proof.
  intros Hi. pose proof (session_binds_client (S (length (stdin w))) w _ _ _ Hi)
    as (Hb & _).
  unfold run, main, try_finally.
  assert (Hs : forall r w1, session (S (length (stdin w))) w = (r, w1) ->
            r <> Diverge ->
            (exists e, r = Raise e) \/
            exists evs text,
              trace w1 = trace w ++ evs ++ [EvPrint (text +:+ nl)] /\
              (text = msg_auth_failed \/ text = msg_ssh_failed \/ text = msg_aborted \/
               exists e, text = "An error occurred: " +:+ exn_msg e)).
  { intros r w1. unfold session, try_except.
    destruct w as [i c s f h l b t]. simpl in Hi. subst i.
    erewrite bind_ok by (apply input_line; reflexivity).
    erewrite bind_ok by (apply input_line; reflexivity).
    rewrite (bind_ok new_ssh_client _ _ tt _ eq_refl).
    match goal with
    | |- context [session_loop ?n ?u ?p ?w0] =>
        pose proof (keeps_session_loop u p n w0) as ((ev0 & Ht0 & _) & _);
        pose proof (session_loop_break u p n w0) as Hbr;
        destruct (session_loop n u p w0) as [[[]|e2|] w2]
    end; simpl in Ht0.
    - intros [= <- <-] _. right.
      destruct (Hbr w2 eq_refl) as (evs & text & Ht & Hm).
      exists ([EvInput prompt_username; EvInput prompt_password] ++ evs), text.
      split; [|tauto]. rewrite Ht. simpl. now rewrite <- !app_assoc.
    - cbn [handle]. destruct (isinstance e2 Exception).
      + intros [= <- <-] _. right.
        exists ([EvInput prompt_username; EvInput prompt_password] ++ ev0),
               ("An error occurred: " +:+ exn_msg e2).
        split; [|eauto 6]. simpl. rewrite Ht0. simpl. now rewrite <- !app_assoc.
      + intros [= <- <-] _. left. eauto.
    - intros [= <- _] H. now contradiction H. }
  destruct (session (S (length (stdin w))) w) as [r w1]. simpl in Hb.
  specialize (Hs r w1 eq_refl).
  destruct r as [[]|e|]; try discriminate.
  - unfold bind, ssh_client_close. rewrite Hb. simpl. intros _.
    destruct (Hs ltac:(discriminate)) as [[e He]|(evs & text & Ht & Hm)];
      [discriminate|].
    exists evs, text. split; [|assumption]. rewrite Ht. now rewrite <- !app_assoc.
  - unfold bind, ssh_client_close. rewrite Hb. simpl. discriminate.
Qed.

Lemma session_ends_after_a_report_witness :
  let w := start [Line "alice"; Line "secret"; Line "7"; Line "/tmp"; Line "maybe";
                  Interrupt]
                 [None; None] [inr (sftp_of case7)] ∅ in
  exists evs text,
    trace (snd (run w)) =
      trace w ++ evs ++ [EvPrint (text +:+ nl); EvClose; EvPrint (msg_ended +:+ nl)] /\
    (text = msg_auth_failed \/ text = msg_ssh_failed \/ text = msg_aborted \/
     exists e, text = "An error occurred: " +:+ exn_msg e).
Proof.
  intros w.
  apply (session_ends_after_a_report w "alice" "secret"
           [Line "7"; Line "/tmp"; Line "maybe"; Interrupt]).
  - reflexivity.
  - vm_compute. reflexivity.
Defined.

(** ** Asking for a file name *)

(** The question ends normally only with a name that the server knows:
    the paths it gives are the two directories joined with that name, and
    stat has succeeded on the remote one. *)
Theorem ask_filename_gives_existing_file sftp remote_directory local_case_directory fuel :
  forall (w w' : world) name remote_file_path local_file_path,
  ask_filename fuel sftp remote_directory local_case_directory w =
    (Ok (name, remote_file_path, local_file_path), w') ->
  remote_file_path = path_join remote_directory name /\
  local_file_path = path_join local_case_directory name /\
  exists a, sftp_stat sftp remote_file_path = inr a.
Proof.
  induction fuel as [|fuel IH]; intros w w' name rp lp; simpl; [discriminate|].
  unfold bind at 1. destruct (input prompt_filename w) as [[answer|e|] w1];
    try discriminate.
  unfold bind at 1. unfold try_except, stat, bind at 1, bind at 1, log, lift.
  destruct (sftp_stat sftp (path_join remote_directory answer)) as [e|a] eqn:Es.
  - cbn [raise handle].
    destruct (isinstance e FileNotFoundError); [|discriminate].
    cbn [print print_end log bind ret]. unfold bind, print, print_end, log.
    cbn beta iota delta [ret]. apply IH.
  - cbn beta iota delta [ret]. intros [= <- <- <- _]. eauto.
Qed.

Lemma ask_filename_gives_existing_file_witness :
  let w := start [Line "zz"; Line "a.txt"] [] [] ∅ in
  exists a, sftp_stat (sftp_of case7) "/case/7/a.txt" = inr a.
Proof.
  intros w.
  destruct (ask_filename_gives_existing_file (sftp_of case7) "/case/7" "/tmp/7" 3
              w (snd (ask_filename 3 (sftp_of case7) "/case/7" "/tmp/7" w))
              "a.txt" "/case/7/a.txt" "/tmp/7/a.txt") as (_ & _ & H).
  - vm_compute. reflexivity.
  - exact H.
Defined.

(** Only a file that is not there is asked for again. When stat fails with
    FileNotFoundError the script says so and repeats the question; any
    other failure of stat (a lost connection, no permission) is not
    caught there and ends the question with that exception. *)
Theorem ask_filename_retries_only_missing sftp remote_directory local_case_directory
    fuel (w : world) name rest e :
  stdin w = Line name :: rest ->
  sftp_stat sftp (path_join remote_directory name) = inl e ->
  ask_filename (S fuel) sftp remote_directory local_case_directory w =
  if isinstance e FileNotFoundError
  then ask_filename fuel sftp remote_directory local_case_directory
         (emit [EvInput prompt_filename; EvStat (path_join remote_directory name);
                EvPrint (("Remote file '" +:+ name +:+
                          "' does not exist. Please enter a valid filename.") +:+ nl)]
               (set_stdin rest w))
  else (Raise e,
        emit [EvInput prompt_filename; EvStat (path_join remote_directory name)]
             (set_stdin rest w)).
Proof.
  intros Hi Hs. simpl.
  rewrite (bind_ok _ _ _ _ _ (input_line prompt_filename name rest w Hi)).
  unfold bind at 1. unfold try_except, stat, bind at 1, bind at 1, log, lift.
  rewrite Hs. cbn [raise handle].
  destruct (isinstance e FileNotFoundError).
  - unfold bind, print, print_end, log. cbn beta iota delta [ret].
    f_equal. same_world.
  - unfold raise. f_equal. same_world.
Qed.

Lemma ask_filename_retries_only_missing_witness :
  let w := start [Line "logs/x"; Line "a.txt"] [] [] ∅ in
  let denied := Exn OSError "Permission denied" in
  let sftp := {| sftp_listdir_attr := fun _ => inl denied;
                 sftp_listdir := fun _ => inl denied;
                 sftp_stat := fun _ => inl denied;
                 sftp_read := fun _ => inl denied |} in
  ask_filename 3 sftp "/case/7" "/tmp/7" w =
  (Raise denied,
   emit [EvInput prompt_filename; EvStat "/case/7/logs/x"] (set_stdin [Line "a.txt"] w)).
Proof.
  intros w denied sftp.
  exact (ask_filename_retries_only_missing sftp "/case/7" "/tmp/7" 2 w "logs/x"
           [Line "a.txt"] denied eq_refl eq_refl).
Defined.

(** ** The listing of the case directory *)

(** Only an IOError of the first listing counts as a directory that does
    not exist. Any other exception of that listing leaves the pass: an
    interrupt is answered with the abort message and ends the loop, and
    everything else goes out to the outer handler; in both cases the SFTP
    session is closed first and nothing is said about the directory. *)
Theorem listing_failure_leaves_the_pass fuel (w : world) case_number parent rest
    sftp ss e :
  stdin w = Line case_number :: Line parent :: rest ->
  sftps w = inr sftp :: ss ->
  sftp_listdir sftp ("/case/" +:+ case_number) = inl e ->
  isinstance e OSError = false ->
  case_step fuel w =
  let called := [EvInput prompt_case; EvInput prompt_parent; EvOpenSftp;
                 EvListdir ("/case/" +:+ case_number); EvCloseSftp] in
  if isinstance e KeyboardInterrupt
  then (Ok Break,
        emit (called ++ [EvPrint (msg_aborted +:+ nl)]) (set_sftps ss (set_stdin rest w)))
  else (Raise e, emit called (set_sftps ss (set_stdin rest w))).
Proof.
  intros Hi Hs Hl He. destruct w as [i c s f h l b t]. simpl in Hi, Hs. subst i s.
  unfold case_step, try_except.
  erewrite bind_ok by (apply input_line; reflexivity).
  erewrite bind_ok by (apply input_line; reflexivity).
  run_steps. rewrite Hl. run_steps. rewrite He. run_steps.
  destruct (isinstance e KeyboardInterrupt); run_steps; f_equal; same_world.
Qed.

Lemma listing_failure_leaves_the_pass_witness :
  let lost := Exn SSHException "Server connection dropped" in
  let sftp := {| sftp_listdir_attr := fun _ => inl lost;
                 sftp_listdir := fun _ => inl lost;
                 sftp_stat := fun _ => inl lost;
                 sftp_read := fun _ => inl lost |} in
  let w := start [Line "7"; Line "/tmp"] [] [inr sftp] ∅ in
  case_step 3 w =
  (Raise lost,
   emit [EvInput prompt_case; EvInput prompt_parent; EvOpenSftp;
         EvListdir "/case/7"; EvCloseSftp] (set_sftps [] (set_stdin [] w))).
Proof.
  intros lost sftp w.
  exact (listing_failure_leaves_the_pass 3 w "7" "/tmp" [] sftp [] lost
           eq_refl eq_refl eq_refl eq_refl).
Defined.

(** ** The test of line 35 *)

(** The walker takes an entry for a directory exactly when bit 11 of its
    mode (0o4000, set-uid) is set; the file type in the mode plays no
    part. *)
Lemma mode_bit_testbit mode : mode_bit mode = Z.testbit mode 11.
Proof.
  unfold mode_bit. change 2048 with (2 ^ 11).
  destruct (Z.testbit mode 11) eqn:E.
  - apply negb_true_iff, Z.eqb_neq. intros H.
    assert (Ht : Z.testbit (Z.land mode (2 ^ 11)) 11 = true)
      by (rewrite Z.land_spec, E, Z.pow2_bits_true by lia; reflexivity).
    rewrite H, Z.bits_0 in Ht. discriminate.
  - apply negb_false_iff, Z.eqb_eq. apply Z.bits_inj'. intros n Hn.
    rewrite Z.land_spec, Z.bits_0.
    destruct (Z.eq_dec n 11) as [->|Hne]; [now rewrite E|].
    rewrite Z.pow2_bits_false by lia. apply andb_false_r.
Qed.

(** So an ordinary directory, whose mode is S_IFDIR with permission bits
    below 0o4000, is handled as a file, and so is every entry whatever its
    type unless it carries the set-uid bit: for such an entry the loop
    body is the file transfer, with no makedirs and no recursive call. *)
Theorem ordinary_directory_taken_as_file recurse sftp remote_dir local_dir name perm
    size (w : world) :
  0 <= perm < 2048 ->
  should_exclude name = false ->
  download_item recurse sftp remote_dir local_dir (Attr name (Z.lor 16384 perm) size) w =
  download_file sftp (path_join remote_dir name) (path_join local_dir name)
    (Attr name (Z.lor 16384 perm) size) w.
Proof.
  intros Hp He. unfold download_item. simpl. rewrite He. simpl.
  now rewrite (mode_bit_S_IFDIR perm Hp).
Qed.

Lemma ordinary_directory_taken_as_file_witness :
  let w := start [] [] [] {["/tmp/7" := LDir]} in
  download_item (download_directory 5 (sftp_of case7)) (sftp_of case7) "/case/7" "/tmp/7"
    (Attr "logs" (Z.lor 16384 493) 4096) w =
  download_file (sftp_of case7) "/case/7/logs" "/tmp/7/logs"
    (Attr "logs" (Z.lor 16384 493) 4096) w.
Proof.
  intros w.
  exact (ordinary_directory_taken_as_file (download_directory 5 (sftp_of case7))
           (sftp_of case7) "/case/7" "/tmp/7" "logs" 493 4096 w
           ltac:(lia) eq_refl).
Defined.


(** ** The whole script *)

(** The script cannot loop for ever on a finite input: every pass of the
    connection loop and of the file-name loop reads at least one line or
    leaves the loop, and input() raises EOFError when nothing is left. With
    n lines of input the loops make at most n + 1 passes together, and the
    script then ends, normally or with an exception. *)
Theorem script_ends_on_finite_input (w : world) :
  fst (main (S (length (stdin w))) w) <> Diverge /\
  (length (stdin (snd (main (S (length (stdin w))) w))) <= length (stdin w))%nat.
Proof.
  split; [apply (run_total w)|].
  unfold main. set (fuel := S (length (stdin w))).
  assert (Hs : total_within (length (stdin w)) (session fuel)).
  { unfold session. apply total_try_except.
    - apply total_input. intros username n' E.
      apply total_input. intros password n'' ->.
      apply total_bind; [intros w0 Hl; split; [discriminate|assumption]|].
      intros _. apply total_session_loop. unfold fuel. lia.
    - each_clause. apply total_print. }
  assert (Hf : total_within (length (stdin w)) (ssh_client_close;;; print msg_ended)).
  { apply total_bind; [|intros _; apply total_print].
    intros w0 Hl. unfold ssh_client_close.
    destruct (ssh_client_bound w0); split; (discriminate || assumption). }
  apply (total_try_finally _ _ _ Hs Hf w (Nat.le_refl _)).
Qed.

(** Once both credentials are entered, the finally block does what it is
    there for: however the session ends - after a failure, an interrupt,
    an exception or the end of the input - the connection is closed
    exactly once, and the close and the last message are the last two
    things the script does. *)
Theorem session_with_credentials_closes_once (w : world) username password rest :
  stdin w = Line username :: Line password :: rest ->
  exists evs,
    trace (snd (run w)) = trace w ++ evs ++ [EvClose; EvPrint (msg_ended +:+ nl)] /\
    Forall not_close evs /\
    count_occ event_eq_dec (trace (snd (run w))) EvClose
    = S (count_occ event_eq_dec (trace w) EvClose).
Proof.
  intros Hi. destruct (run_closes_once w username password rest Hi) as (evs & Ht & Hf).
  exists evs. split; [assumption|]. split; [assumption|].
  rewrite Ht, !count_occ_app. simpl.
  destruct (event_eq_dec EvClose EvClose) as [_|Hne]; [|now contradiction Hne].
  assert (H0 : count_occ event_eq_dec evs EvClose = 0%nat).
  { apply count_occ_not_In. intros Hin. rewrite Forall_forall in Hf.
    exact (Hf EvClose (proj2 (list_elem_of_In _ _) Hin) eq_refl). }
  rewrite H0. simpl. lia.
Qed.

Lemma session_with_credentials_closes_once_witness :
  let w := start [Line "alice"; Line "secret"; Interrupt] [None] [] ∅ in
  exists evs,
    trace (snd (run w)) = trace w ++ evs ++ [EvClose; EvPrint (msg_ended +:+ nl)] /\
    Forall not_close evs /\
    count_occ event_eq_dec (trace (snd (run w))) EvClose
    = S (count_occ event_eq_dec (trace w) EvClose).
Proof.
  intros w.
  exact (session_with_credentials_closes_once w "alice" "secret" [Interrupt] eq_refl).
Defined.

(** ** A directory of plain files *)










(** * The sentinel names in a walk *)

(** ** What a walk does for an entry it reaches *)

Lemma keeps_any_walk sftp depth remote_dir local_dir :
  keeps (fun _ => True) (download_directory depth sftp remote_dir local_dir).
Proof.
  apply (keeps_weaken (walk_event remote_dir)); [intros; exact I|].
  apply keeps_download_directory. now left.
Qed.

Lemma keeps_any_item sftp depth remote_dir local_dir item :
  keeps (fun _ => True)
    (download_item (download_directory depth sftp) sftp remote_dir local_dir item).
Proof.
  unfold download_item. destruct (should_exclude _); simpl; [apply keeps_ret|].
  destruct (mode_bit _).
  - apply keeps_bind; [now apply keeps_os_makedirs|]. intros _. apply keeps_any_walk.
  - now apply keeps_download_file.
Qed.

(** A walk begins with the listing of its directory. *)
Lemma walk_lists_first sftp depth remote_dir local_dir w :
  exists evs,
    trace (snd (download_directory (S depth) sftp remote_dir local_dir w)) =
    trace w ++ EvListdirAttr remote_dir :: evs.
Proof.
  simpl. unfold bind at 1. unfold listdir_attr, bind at 1, log, lift.
  destruct (sftp_listdir_attr sftp remote_dir) as [e|items].
  - exists []. reflexivity.
  - cbn beta iota delta [ret].
    assert (H : keeps (fun _ => True)
                  (for_each items (download_item (download_directory depth sftp) sftp
                                     remote_dir local_dir)))
      by (apply keeps_for_each; intros; apply keeps_any_item).
    destruct (H (emit [EvListdirAttr remote_dir] w)) as ((evs & Ht & _) & _).
    exists evs. rewrite Ht. simpl. now rewrite <- app_assoc.
Qed.

(** When the entries listed before [item] are handled normally, the walk
    runs the loop body on [item] and then goes on from there. *)
Lemma walk_reaches sftp depth remote_dir local_dir before item after w w1 :
  sftp_listdir_attr sftp remote_dir = inr (before ++ item :: after) ->
  for_each before (download_item (download_directory depth sftp) sftp remote_dir local_dir)
           (emit [EvListdirAttr remote_dir] w) = (Ok tt, w1) ->
  download_directory (S depth) sftp remote_dir local_dir w =
  (download_item (download_directory depth sftp) sftp remote_dir local_dir item;;;
   for_each after (download_item (download_directory depth sftp) sftp remote_dir local_dir))
    w1.
Proof.
  intros Hl Hb. simpl. unfold bind at 1. unfold listdir_attr, bind at 1, log, lift.
  rewrite Hl. cbn beta iota delta [ret].
  now rewrite (for_each_app _ _ _ _ _ Hb).
Qed.

Lemma walk_reaches_trace sftp depth remote_dir local_dir before item after w w1 :
  sftp_listdir_attr sftp remote_dir = inr (before ++ item :: after) ->
  for_each before (download_item (download_directory depth sftp) sftp remote_dir local_dir)
           (emit [EvListdirAttr remote_dir] w) = (Ok tt, w1) ->
  exists evs,
    trace (snd (download_directory (S depth) sftp remote_dir local_dir w)) =
    trace (snd (download_item (download_directory depth sftp) sftp remote_dir local_dir
                  item w1)) ++ evs.
Proof.
  intros Hl Hb. rewrite (walk_reaches _ _ _ _ _ _ _ _ _ Hl Hb). unfold bind at 1.
  assert (H : keeps (fun _ => True)
                (for_each after (download_item (download_directory depth sftp) sftp
                                   remote_dir local_dir)))
    by (apply keeps_for_each; intros; apply keeps_any_item).
  destruct (download_item _ sftp remote_dir local_dir item w1) as [[[]|e|] w2]; simpl.
  - destruct (H w2) as ((evs & Ht & _) & _). now exists evs.
  - exists []. now rewrite app_nil_r.
  - exists []. now rewrite app_nil_r.
Qed.

(** An entry with the mode bit: the local directory is asked for, and
    unless a file is in its place the remote directory is listed. *)
Lemma directory_entry_attempt sftp depth remote_dir local_dir item w :
  should_exclude (filename item) = false -> mode_bit (st_mode item) = true ->
  exists evs,
    trace (snd (download_item (download_directory (S depth) sftp) sftp remote_dir
                  local_dir item w)) = trace w ++ evs /\
    In (EvMakedirs (path_join local_dir (filename item))) evs /\
    ((forall content,
        fs w !! path_join local_dir (filename item) <> Some (LFile content)) ->
     In (EvListdirAttr (path_join remote_dir (filename item))) evs).
Proof.
  intros He Hm. unfold download_item. rewrite He, Hm. cbn [negb].
  set (rp := path_join remote_dir (filename item)).
  set (lp := path_join local_dir (filename item)).
  unfold bind at 1. unfold os_makedirs, bind at 1, log. cbn beta iota.
  change (fs (emit [EvMakedirs lp] w)) with (fs w).
  destruct (fs w !! lp) as [[|c]|] eqn:E.
  - destruct (walk_lists_first sftp depth rp lp (emit [EvMakedirs lp] w)) as [evs Ht].
    exists (EvMakedirs lp :: EvListdirAttr rp :: evs). rewrite Ht. simpl.
    rewrite <- app_assoc. simpl. auto.
  - exists [EvMakedirs lp]. simpl. split; [reflexivity|]. split; [auto|].
    intros H. now contradiction (H c).
  - destruct (walk_lists_first sftp depth rp lp
                (set_fs (<[lp := LDir]> (fs w)) (emit [EvMakedirs lp] w))) as [evs Ht].
    exists (EvMakedirs lp :: EvListdirAttr rp :: evs). rewrite Ht. simpl.
    rewrite <- app_assoc. simpl. auto.
Qed.

(** An entry without the mode bit, of a size that can be shown: the local
    file is opened, and unless a directory is in its place the remote file
    is fetched. *)
Lemma file_entry_attempt recurse sftp remote_dir local_dir item w :
  should_exclude (filename item) = false -> mode_bit (st_mode item) = false ->
  (inject_Z (st_size item) <= pow1024 4)%Q ->
  exists evs,
    trace (snd (download_item recurse sftp remote_dir local_dir item w)) = trace w ++ evs /\
    In (EvOpen (path_join local_dir (filename item)) "wb") evs /\
    (fs w !! path_join local_dir (filename item) <> Some LDir ->
     In (EvGetfo (path_join remote_dir (filename item))) evs).
Proof.
  intros He Hm Hs. unfold download_item. rewrite He, Hm. cbn [negb].
  set (rp := path_join remote_dir (filename item)).
  set (lp := path_join local_dir (filename item)).
  destruct (proj2 (format_size_returns _) Hs) as [shown Hshown].
  assert (Hok : fs w !! lp <> Some LDir ->
          exists evs,
            trace (snd (download_file sftp rp lp item w)) = trace w ++ evs /\
            In (EvOpen lp "wb") evs /\ In (EvGetfo rp) evs).
  { intros Hd.
    destruct (download_file_creates sftp rp lp item shown w Hd Hshown)
      as (evs & data & Ht & _).
    eexists. split; [exact Ht|]. simpl. auto. }
  destruct (fs w !! lp) as [[|c]|] eqn:E.
  - eexists. split; [|split; [|intros H; now contradiction H]].
    + unfold download_file. unfold bind at 1. unfold lift. rewrite Hshown.
      cbn beta iota delta [ret]. unfold bind at 1. rewrite print_run.
      unfold bind at 1. unfold with_open. unfold bind at 1.
      unfold py_open, bind, log. simpl. rewrite E. simpl.
      rewrite <- app_assoc. reflexivity.
    + simpl. auto.
  - destruct Hok as (evs & Ht & Ho & Hg); [discriminate|].
    exists evs. auto.
  - destruct Hok as (evs & Ht & Ho & Hg); [discriminate|].
    exists evs. auto.
Qed.

(** ** What a walk never does *)

(** Every call of a walk is for a directory it goes into or for an entry
    that the server lists there under a name that is not excluded. *)
Lemma keeps_walk_call sftp root_remote root_local depth : forall remote_dir local_dir,
  visited sftp root_remote root_local remote_dir local_dir ->
  keeps (walk_call sftp root_remote root_local)
        (download_directory depth sftp remote_dir local_dir).
Proof.
  induction depth as [|depth IH]; intros remote_dir local_dir Hv; simpl.
  - apply keeps_raise.
  - intros w. unfold bind at 1. unfold listdir_attr, bind at 1, log, lift.
    assert (H0 : evolves (walk_call sftp root_remote root_local) w
                   (emit [EvListdirAttr remote_dir] w))
      by (apply evolves_emit; simpl; eauto).
    destruct (sftp_listdir_attr sftp remote_dir) as [e|items] eqn:E; [exact H0|].
    cbn beta iota delta [ret].
    eapply evolves_trans; [exact H0|].
    apply keeps_for_each. intros item Hin. unfold download_item.
    destruct (should_exclude (filename item)) eqn:Ex; simpl; [apply keeps_ret|].
    destruct (mode_bit (st_mode item)) eqn:Em.
    + apply keeps_bind.
      * apply keeps_os_makedirs. simpl.
        exists (path_join remote_dir (filename item)), remote_dir, local_dir, items, item.
        auto 10.
      * intros _. apply IH. eapply visited_entry; eassumption.
    + assert (Hentry : listed_entry sftp root_remote root_local false
                         (path_join remote_dir (filename item))
                         (path_join local_dir (filename item)))
        by (exists remote_dir, local_dir, items, item; auto 10).
      apply keeps_download_file; simpl; eauto.
Qed.

(** C2. should_exclude is true exactly for the two sentinel names, by
    equality and not by pattern (a longer name, a suffix, a wild card or
    another case do not match). Take a walk that reaches an entry, the
    entries listed before it being handled normally. If the name of the
    entry is a sentinel, nothing at all is done for it: the walk goes on
    with the next entry in the same state. If it is any other name, the
    walker attempts it as the mode bit says: it asks for the local
    directory and, unless a file is in its place, lists the remote
    directory in the recursive call; or, for a size that can be shown, it
    opens the local file and, unless a directory is in its place, fetches
    the remote file. And whatever the server answers, every call of the
    walk on the server or on the local files is for a directory the walk
    goes into or for an entry that the server lists there under a name
    that is not excluded. On case 5, which has a file under each sentinel
    name at the top and in logs, the calls are those for a.txt, logs and
    logs/b.txt and no other. *)
Theorem exclusion_exact_match sftp remote_dir local_dir depth before item after
    (w w1 : world) :
  sftp_listdir_attr sftp remote_dir = inr (before ++ item :: after) ->
  for_each before
    (download_item (download_directory (S depth) sftp) sftp remote_dir local_dir)
    (emit [EvListdirAttr remote_dir] w) = (Ok tt, w1) ->
  let remote_path := path_join remote_dir (filename item) in
  let local_path := path_join local_dir (filename item) in
  let walk := download_directory (S (S depth)) sftp remote_dir local_dir w in
  (forall name,
     should_exclude name = true <->
     name = ".sfdcprefix" \/ name = ".sfdc-file-listing-v1") /\
  (should_exclude ".sfdcprefix" = true /\
   should_exclude ".sfdc-file-listing-v1" = true /\
   should_exclude ".sfdcprefix.bak" = false /\
   should_exclude "a.sfdcprefix" = false /\
   should_exclude ".sfdc*" = false /\
   should_exclude ".SFDCPREFIX" = false) /\
  (should_exclude (filename item) = true ->
   walk =
   for_each after
     (download_item (download_directory (S depth) sftp) sftp remote_dir local_dir) w1) /\
  (should_exclude (filename item) = false ->
   exists evs,
     trace (snd walk) = trace w1 ++ evs /\
     (mode_bit (st_mode item) = true ->
      In (EvMakedirs local_path) evs /\
      ((forall content, fs w1 !! local_path <> Some (LFile content)) ->
       In (EvListdirAttr remote_path) evs)) /\
     (mode_bit (st_mode item) = false ->
      (inject_Z (st_size item) <= pow1024 4)%Q ->
      In (EvOpen local_path "wb") evs /\
      (fs w1 !! local_path <> Some LDir -> In (EvGetfo remote_path) evs))) /\
  (exists evs,
     trace (snd walk) = trace w ++ evs /\
     Forall (walk_call sftp remote_dir local_dir) evs) /\
  (let w0 := start [] [] [] {["/tmp/5" := LDir]} in
   calls (trace (snd (download_directory 1000 (sftp_of case5) "/case/5" "/tmp/5" w0))) =
   [EvListdirAttr "/case/5";
    EvOpen "/tmp/5/a.txt" "wb"; EvGetfo "/case/5/a.txt"; EvCloseFile "/tmp/5/a.txt";
    EvMakedirs "/tmp/5/logs"; EvListdirAttr "/case/5/logs";
    EvOpen "/tmp/5/logs/b.txt" "wb"; EvGetfo "/case/5/logs/b.txt";
    EvCloseFile "/tmp/5/logs/b.txt"]).
Proof.
  intros Hl Hb remote_path local_path walk.
  split; [exact should_exclude_spec|]. split; [repeat split|].
  split; [|split; [|split]].
  - intros Hx. unfold walk. rewrite (walk_reaches _ _ _ _ _ _ _ _ _ Hl Hb).
    unfold bind at 1, download_item. now rewrite Hx.
  - intros Hx.
    destruct (walk_reaches_trace _ _ _ _ _ _ _ _ _ Hl Hb) as [evs2 H2].
    destruct (keeps_any_item sftp (S depth) remote_dir local_dir item w1)
      as ((evs1 & H1 & _) & _).
    exists (evs1 ++ evs2). split; [unfold walk; now rewrite H2, H1, <- app_assoc|].
    split.
    + intros Em.
      destruct (directory_entry_attempt sftp depth remote_dir local_dir item w1 Hx Em)
        as (evs & Ht & Hm & Hr).
      rewrite H1 in Ht. apply app_inv_head in Ht. subst evs.
      split; [apply in_or_app; now left|].
      intros Hf. apply in_or_app. left. now apply Hr.
    + intros Em Hs.
      destruct (file_entry_attempt (download_directory (S depth) sftp) sftp remote_dir
                  local_dir item w1 Hx Em Hs) as (evs & Ht & Ho & Hg).
      rewrite H1 in Ht. apply app_inv_head in Ht. subst evs.
      split; [apply in_or_app; now left|].
      intros Hf. apply in_or_app. left. now apply Hg.
  - apply (keeps_walk_call sftp remote_dir local_dir (S (S depth)) remote_dir local_dir).
    constructor.
  - vm_compute. reflexivity.
Qed.

Lemma exclusion_exact_match_witness :
  let sftp := sftp_of case5 in
  let w := start [] [] [] {["/tmp/5" := LDir]} in
  let before := [Attr "a.txt" mode_file 5; Attr ".sfdcprefix" mode_file 1] in
  let w1 := snd (for_each before
                   (download_item (download_directory 2 sftp) sftp "/case/5" "/tmp/5")
                   (emit [EvListdirAttr "/case/5"] w)) in
  exists evs,
    trace (snd (download_directory 3 sftp "/case/5" "/tmp/5" w)) = trace w1 ++ evs /\
    In (EvMakedirs "/tmp/5/logs") evs /\
    In (EvListdirAttr "/case/5/logs") evs.
Proof.
  intros sftp w before w1.
  destruct (exclusion_exact_match sftp "/case/5" "/tmp/5" 1 before
              (Attr "logs" (Z.lor mode_dir 2048) 4096)
              [Attr ".sfdc-file-listing-v1" mode_file 1] w w1)
    as (_ & _ & _ & H & _).
  - vm_compute. reflexivity.
  - vm_compute. reflexivity.
  - destruct H as (evs & Ht & Hd & _); [reflexivity|].
    destruct Hd as [Hm Hr]; [reflexivity|].
    exists evs. split; [exact Ht|]. split; [exact Hm|].
    apply Hr. intros content. vm_compute. discriminate.
Defined.
